(** * Interpretation phase of the LDA pipeline: aggregation of
      document-topic distributions ([interpretation.py]).

    The development embeds the numeric core of [interpretation.py]:
    the per-document topic vector (values of the persisted mapping in
    ascending numeric key order), the dominant-topic selection of the
    titles table and of the co-occurrence view, the three grouping
    passes (per year, per journal, per dominant topic), the column-mean
    reducers, the self co-occurrence suppression of the heat map, and
    the inference pass that writes the derived collection.

    Modelling conventions.
    - Probabilities are exact rationals ([Qc], canonical fractions),
      the idealisation of Python floats under which the statements on
      means are exact.
    - A Python [dict] that the code iterates ([d['topics'].iteritems()])
      is the list of its items in iteration order; a [dict] that the
      code only fills and hands on (the buckets, the cumulative
      distributions) is a [gmap].
    - A raised exception is a value of [exn]; a function that may raise
      returns a [result]. *)

From Stdlib Require Import Ascii String QArith Qcanon.
From stdpp Require Import base option list numbers strings pretty gmap fin_maps sorting.

Local Open Scope Qc_scope.

(** ** Exceptions and the error monad *)

Inductive exn : Type :=
  | KeyError (key : string)          (* [d[key]] on a record without [key] *)
  | AttributeError (attr : string)   (* [None.attr] *)
  | ValueError_int (lit : string)    (* [int(lit)] on a non-literal *)
  | ValueError_max_empty             (* [max()] of an empty sequence *)
  | RaggedArrayError                 (* [np.mean] over rows of unequal length *)
  | EmptyMeanError                   (* [np.mean] over no rows (NaN) *)
  | ValueError_not_in_list           (* [l.index(x)] when [x] is not in [l] *)
  | FrameLengthError                 (* [DataFrame.from_dict]: columns of unequal length *)
  | ColumnKeyError (label : string). (* [df[label]] on a frame without that column *)

Inductive result (A : Type) : Type :=
  | Ok (a : A)
  | Raise (e : exn).
Arguments Ok {A} a.
Arguments Raise {A} e.

#[global] Instance result_ret : MRet result := λ A a, Ok a.
#[global] Instance result_bind : MBind result := λ A B f r,
  match r with
  | Ok a => f a
  | Raise e => Raise e
  end.
#[global] Instance result_fmap : FMap result := λ A B f r,
  match r with
  | Ok a => Ok (f a)
  | Raise e => Raise e
  end.

Definition succeeds {A} (r : result A) : Prop := ∃ a, r = Ok a.
Definition raises {A} (r : result A) : Prop := ∃ e, r = Raise e.

(** ** The builtin [int] on strings

    [int(s)] in Python 2 strips surrounding white space, accepts one
    optional sign and then requires a non-empty run of decimal digits.
    Strings are byte strings; the result is unbounded. *)

Definition py_isspace (a : ascii) : bool :=
  let n := nat_of_ascii a in
  (n =? 32)%nat || ((9 <=? n)%nat && (n <=? 13)%nat).

Fixpoint lstrip (l : list ascii) : list ascii :=
  match l with
  | a :: l' => if py_isspace a then lstrip l' else l
  | [] => []
  end.

Definition strip (l : list ascii) : list ascii :=
  rev (lstrip (rev (lstrip l))).

Definition digit_value (a : ascii) : option Z :=
  let n := nat_of_ascii a in
  if ((48 <=? n)%nat && (n <=? 57)%nat)%bool then Some (Z.of_nat (n - 48)) else None.

Fixpoint digits_value (acc : Z) (l : list ascii) : option Z :=
  match l with
  | [] => Some acc
  | a :: l' => d ← digit_value a; digits_value (10 * acc + d) l'
  end.

Definition unsigned_literal (l : list ascii) : option Z :=
  match l with
  | [] => None
  | _ => digits_value 0 l
  end.

Definition parse_int (s : string) : option Z :=
  match strip (list_ascii_of_string s) with
  | "+"%char :: l => unsigned_literal l
  | "-"%char :: l => Z.opp <$> unsigned_literal l
  | l => unsigned_literal l
  end.

Definition py_int (s : string) : result Z :=
  match parse_int s with
  | Some z => Ok z
  | None => Raise (ValueError_int s)
  end.

Definition is_digit (a : ascii) : Prop := is_Some (digit_value a).

(** [str(n)] on an integer is its decimal notation, stdpp's [pretty]. *)
Definition py_str (n : Z) : string := pretty n.


(** A [for] loop whose body updates an accumulator and may raise. *)
Fixpoint for_each {S A} (body : S → A → result S) (s : S) (l : list A) : result S :=
  match l with
  | [] => Ok s
  | x :: l' => s' ← body s x; for_each body s' l'
  end.

(** ** Records of the document store

    A record carries its metadata and, depending on the collection,
    the token list (raw collection) or the topic mapping (derived
    collection). The metadata are always there ([year] is the integer
    [int(d['year'])]); the token list and the topic mapping are
    missing, stored as null, or present. The mapping under [topics] is
    the list of its items in iteration order; its keys are the
    string-typed storage keys. *)

Inductive field (A : Type) : Type :=
  | Absent
  | Null
  | Present (a : A).
Arguments Absent {A}.
Arguments Null {A}.
Arguments Present {A} a.

Abbreviation topic_items := (list (string * Qc)).

Record document : Type := Document {
  journal : string;
  year : Z;
  title : string;
  tokens : field (list string);
  topics : field topic_items
}.

(** [d.get(name) is not None] *)
Definition is_not_None {A} (f : field A) : bool :=
  match f with
  | Present _ => true
  | _ => false
  end.

(** [d['topics'].iteritems()] *)
Definition topics_iteritems (d : document) : result topic_items :=
  match topics d with
  | Present items => Ok items
  | Absent => Raise (KeyError "topics")
  | Null => Raise (AttributeError "iteritems")
  end.

(** ** Sorting by numeric key

    [sorted(items, key=lambda x: int(x[0]))] computes the key of every
    item first, in order, and then sorts stably on the keys. *)

Fixpoint insert_by_key {A} (x : Z * A) (l : list (Z * A)) : list (Z * A) :=
  match l with
  | [] => [x]
  | y :: l' => if (x.1 <=? y.1)%Z then x :: l else y :: insert_by_key x l'
  end.

Definition sort_by_key {A} (l : list (Z * A)) : list (Z * A) :=
  foldr insert_by_key [] l.

Definition int_keyed (items : topic_items) : result (list (Z * (string * Qc))) :=
  mapM (λ x, k ← py_int x.1; mret (k, x)) items.

Definition sorted_by_int_key (items : topic_items) : result topic_items :=
  keyed ← int_keyed items; mret (snd <$> sort_by_key (keyed : list (Z * (string * Qc)))).

(** [[value for key, value in sorted(items, key=lambda x: int(x[0]))]],
    the topic vector of a document as every aggregation path builds it. *)
Definition sorted_topic_values (items : topic_items) : result (list Qc) :=
  sorted ← sorted_by_int_key items; mret (snd <$> (sorted : topic_items)).

(** ** The builtins [max] and [list.index] *)

(** [max(l, key=key)]: the first element whose key no later element
    exceeds; raises on the empty sequence. *)
Fixpoint max_from {A} (key : A → Qc) (best : A) (l : list A) : A :=
  match l with
  | [] => best
  | x :: l' => max_from key (if bool_decide (key best < key x) then x else best) l'
  end.

Definition py_max {A} (key : A → Qc) (l : list A) : result A :=
  match l with
  | [] => Raise ValueError_max_empty
  | x :: l' => Ok (max_from key x l')
  end.

(** [l.index(v)]: the first position holding [v]. *)
Fixpoint py_index (v : Qc) (l : list Qc) : result nat :=
  match l with
  | [] => Raise ValueError_not_in_list
  | x :: l' => if bool_decide (x = v) then Ok 0%nat else S <$> py_index v l'
  end.

(** ** Dominant topic of the titles table ([get_document_title_per_topic]) *)

(** [max(d['topics'].iteritems(), key = itemgetter(1))] *)
Definition dominant_topic (d : document) : result (string * Qc) :=
  items ← topics_iteritems d; py_max snd items.

Record title_row : Type := TitleRow {
  row_year : Z;
  row_title : string;
  row_journal : string;
  dominant_topic_id : string;
  dominant_topic_percentage : Qc
}.

(** The rows handed to [save_csv], in document order. *)
Definition get_document_title_per_topic (D : list document) : result (list title_row) :=
  for_each (λ titles d,
    dominant ← dominant_topic d;
    mret (titles ++ [TitleRow (year d) (title d) (journal d) dominant.1 dominant.2]))
  [] D.

(** ** Buckets *)

(** [if k not in m: m[k] = []] *)
Definition ensure_key `{Countable K} {V} (k : K) (m : gmap K (list V)) : gmap K (list V) :=
  if decide (is_Some (m !! k)) then m else <[k := []]> m.

(** [m[k].append(v)] on a mapping that holds [k] *)
Definition append_to `{Countable K} {V} (k : K) (v : V) (m : gmap K (list V)) : gmap K (list V) :=
  alter (λ b, b ++ [v]) k m.

(** ** Grouping per year ([get_year_to_topics]) *)

Definition get_year_to_topics (D : list document) : result (gmap Z (list (list Qc))) :=
  for_each (λ year_to_topics d,
    let year_to_topics := ensure_key (year d) year_to_topics in
    items ← topics_iteritems d;
    topics ← sorted_topic_values items;
    mret (append_to (year d) topics year_to_topics))
  ∅ D.

(** ** Column means ([np.mean(np.array(v), axis = 0)])

    The rows of a bucket form a two-dimensional array only when they
    have one common length; on ragged rows the mean raises. Over no
    rows at all numpy returns [nan] with a warning, which is no
    vector. The grouping loops put a row in every bucket they create,
    so no bucket they build is empty; the model has no value for that
    case and marks it by [EmptyMeanError], and statements about a
    reducer are made for buckets built by a grouping loop. The means
    are computed over the rationals, where numpy rounds to binary64:
    order and bounds carry over to the program, an equation between
    computed means holds for it up to rounding. *)

Definition Qc_of_nat (n : nat) : Qc := Qc_of_Z (Z.of_nat n).

Definition sum_list (l : list Qc) : Qc := foldr Qcplus 0 l.

Definition column (j : nat) (rows : list (list Qc)) : list Qc :=
  (λ r, default 0 (r !! j)) <$> rows.

Definition np_mean_axis0 (rows : list (list Qc)) : result (list Qc) :=
  match rows with
  | [] => Raise EmptyMeanError
  | r :: _ =>
      if bool_decide (Forall (λ r', length r' = length r) rows)
      then Ok ((λ j, sum_list (column j rows) / Qc_of_nat (length rows)) <$> seq 0 (length r))
      else Raise RaggedArrayError
  end.

(** The loop [for k, v in buckets.iteritems(): cum[k] = f(v)] shared by
    the three reducers. *)
Definition reduce_body `{Countable K} (f : list (list Qc) → result (list Qc))
    (cum : gmap K (list Qc)) (kv : K * list (list Qc)) : result (gmap K (list Qc)) :=
  mean_topics ← f kv.2; mret (<[kv.1 := mean_topics]> cum).

Definition reduce_buckets `{Countable K} (f : list (list Qc) → result (list Qc))
    (buckets : gmap K (list (list Qc))) : result (gmap K (list Qc)) :=
  for_each (reduce_body f) ∅ (map_to_list buckets).

Definition get_year_to_cum_topics (year_to_topics : gmap Z (list (list Qc)))
    : result (gmap Z (list Qc)) :=
  reduce_buckets np_mean_axis0 year_to_topics.

Definition get_journal_to_cum_topics (journal_to_topics : gmap string (list (list Qc)))
    : result (gmap string (list Qc)) :=
  reduce_buckets np_mean_axis0 journal_to_topics.

(** ** Grouping per journal ([plot_topics_in_journals]) *)

Definition journal_to_topics_of (D : list document) : result (gmap string (list (list Qc))) :=
  for_each (λ journal_to_topics d,
    match topics d with
    | Present items =>
        let journal_to_topics := ensure_key (journal d) journal_to_topics in
        topics ← sorted_topic_values items;
        mret (append_to (journal d) topics journal_to_topics)
    | _ => mret journal_to_topics
    end)
  ∅ D.

(** The cumulative distribution handed to the heat map. *)
Definition plot_topics_in_journals (D : list document) : result (gmap string (list Qc)) :=
  journal_to_topics ← journal_to_topics_of D;
  get_journal_to_cum_topics journal_to_topics.

(** The cumulative distribution of [plot_topics_over_time]. *)
Definition plot_topics_over_time (D : list document) : result (gmap Z (list Qc)) :=
  year_to_topics ← get_year_to_topics D;
  get_year_to_cum_topics year_to_topics.

(** ** Grouping per dominant topic ([plot_topic_co_occurrence]) *)

(** [topics.index(max(topics))] *)
Definition max_topic_id_of (topics : list Qc) : result nat :=
  m ← py_max id topics; py_index m topics.

Definition dominant_id_to_topics_of (D : list document) : result (gmap nat (list (list Qc))) :=
  for_each (λ dominant_id_to_topics d,
    items ← topics_iteritems d;
    topics ← sorted_topic_values items;
    max_topic_id ← max_topic_id_of topics;
    let dominant_id_to_topics := ensure_key max_topic_id dominant_id_to_topics in
    mret (append_to max_topic_id topics dominant_id_to_topics))
  ∅ D.

(** [np.mean(np.array(v), axis=0) * 100.] *)
Definition mean_percent (v : list (list Qc)) : result (list Qc) :=
  m ← np_mean_axis0 v; mret ((λ x, x * Qc_of_Z 100) <$> (m : list Qc)).

Definition dominant_id_to_cum_topics_of (D : list document) : result (gmap nat (list Qc)) :=
  dominant_id_to_topics ← dominant_id_to_topics_of D;
  reduce_buckets mean_percent dominant_id_to_topics.

(** The value bound to a string key in a list of items, the first
    one in order. *)
Fixpoint assoc_get {V} (k : string) (l : list (string * V)) : option V :=
  match l with
  | [] => None
  | kv :: l' => if bool_decide (kv.1 = k) then Some kv.2 else assoc_get k l'
  end.

(** ** The co-occurrence frame and the suppression of self co-occurrence

    A [DataFrame] is its row labels and its labelled columns. The rows
    of the frame built from the cumulative distribution are the
    positions of the vectors, its columns the dominant topic ids; both
    are renamed with the topic labels. *)

Record DataFrame : Type := Frame {
  df_index : list string;
  df_columns : list (string * list Qc)
}.

(** [df[label]] *)
Definition get_column (label : string) (df : DataFrame) : option (list Qc) :=
  assoc_get label (df_columns df).

(** [df[label] = x], one value for every row *)
Definition assign_column (label : string) (x : Qc) (df : DataFrame) : DataFrame :=
  let fresh := replicate (length (df_index df)) x in
  Frame (df_index df)
    (if bool_decide (label ∈ (df_columns df).*1)
     then (λ c, if bool_decide (c.1 = label) then (c.1, fresh) else c) <$> df_columns df
     else df_columns df ++ [(label, fresh)]).

(** [df[col][row] = x]: the cell of column [col] in the rows labelled
    [row]; raises when the frame has no column [col]. *)
Definition set_rows (index : list string) (row : string) (x : Qc) (values : list Qc) : list Qc :=
  zip_with (λ label v, if bool_decide (label = row) then x else v) index values.

Definition set_cell (col row : string) (x : Qc) (df : DataFrame) : result DataFrame :=
  if bool_decide (col ∈ (df_columns df).*1)
  then Ok (Frame (df_index df)
             ((λ c, if bool_decide (c.1 = col)
                    then (c.1, set_rows (df_index df) row x c.2) else c) <$> df_columns df))
  else Raise (ColumnKeyError col).

(** The values of row [i], as [iterrows] yields them. *)
Definition row_values (i : nat) (df : DataFrame) : list Qc :=
  (λ c, default 0 (c.2 !! i)) <$> df_columns df.

Definition common_length (cols : list (list Qc)) : result nat :=
  match cols with
  | [] => Ok 0%nat
  | c :: _ =>
      if bool_decide (Forall (λ c', length c' = length c) cols)
      then Ok (length c) else Raise FrameLengthError
  end.

Section co_occurrence_frame.
(** [get_topic_label] of [helper_functions], the label of a topic. *)
Variable get_topic_label : nat → string.

(** [pd.DataFrame.from_dict(cum)] followed by the renaming of
    [df.columns] and [df.index]. *)
Definition labelled_frame (cum : gmap nat (list Qc)) : result DataFrame :=
  n ← common_length (snd <$> map_to_list cum);
  mret (Frame (get_topic_label <$> seq 0 n)
              ((λ kv, (get_topic_label kv.1, kv.2)) <$> map_to_list cum)).

(** The body of [for index, row in df.iterrows()]: record the
    maximum of the row, then make the self co-occurrence zero. The
    two chained assignments write through to the frame. A row is read
    when the loop reaches it; with distinct row labels no earlier
    iteration has written to it. *)
Definition suppress_row (df : DataFrame) (ir : nat * string) : result DataFrame :=
  let row := row_values ir.1 df in
  m ← py_max id row;
  df ← set_cell "max" ir.2 m df;
  set_cell ir.2 ir.2 0 df.

Definition self_suppress (cum : gmap nat (list Qc)) : result DataFrame :=
  df ← labelled_frame cum;
  let df := assign_column "max" 0 df in
  for_each suppress_row df (imap (λ i label, (i, label)) (df_index df)).

(** [plot_topic_co_occurrence], up to the end of the suppression loop. *)
Definition plot_topic_co_occurrence (D : list document) : result DataFrame :=
  dominant_id_to_cum_topics ← dominant_id_to_cum_topics_of D;
  self_suppress dominant_id_to_cum_topics.
End co_occurrence_frame.

(** ** The inference pass ([infer_document_topic_distribution]) *)

(** Modelled from the spec: the document store of [database.py], which
    is not part of the sources at hand. The store holds the raw
    collection and the derived collection; [read_collection] returns
    the records of a collection in a stable order and
    [insert_one_to_collection] adds one record to a collection. *)
Record store : Type := Store {
  publications_raw : list document;
  publications : list document
}.

(** Modelled from the spec: the two collection names the code passes to
    the store of [database.py], ['publications_raw'] and ['publications']. *)
Inductive collection : Type := Publications_raw | Publications.

(** Modelled from the spec: [read_collection] of [database.py]
    ([read_collection(name) -> iterable of records]). *)
Definition read_collection (c : collection) (db : store) : list document :=
  match c with
  | Publications_raw => publications_raw db
  | Publications => publications db
  end.

(** Modelled from the spec: [insert_one_to_collection] of [database.py]
    ([insert_one(collection, record)]); the record is added as a new
    record, the others are left as they are. *)
Definition insert_one_to_collection (c : collection) (doc : document) (db : store) : store :=
  match c with
  | Publications_raw => Store (publications_raw db ++ [doc]) (publications db)
  | Publications => Store (publications_raw db) (publications db ++ [doc])
  end.

(** [dic[k] = v] on the items of a mapping: the value of a key already
    present is replaced in place. Where a new key lands in the
    iteration order is up to the hash table; the model puts it last. *)
Fixpoint dict_set (k : string) (v : Qc) (items : topic_items) : topic_items :=
  match items with
  | [] => [(k, v)]
  | kv :: items' => if bool_decide (kv.1 = k) then (k, v) :: items' else kv :: dict_set k v items'
  end.

(** [dic[k]] as an option *)
Definition dict_get (k : string) (items : topic_items) : option Qc :=
  assoc_get k items.

(** [for t in topics: dic_topics[str(t[0])] = float(t[1])] *)
Definition dic_topics_of (topics : list (Z * Qc)) : topic_items :=
  foldl (λ dic_topics t, dict_set (py_str t.1) t.2 dic_topics) [] topics.

Section inference.
(** [model.get_document_topics(model.id2word.doc2bow(tokens))] of the
    trained model: the sparse distribution inferred for a token list. *)
Variable get_document_topics : list string → list (Z * Qc).

Definition insert_doc_of (d : document) (toks : list string) : document :=
  Document (journal d) (year d) (title d) Absent
           (Present (dic_topics_of (get_document_topics toks))).

Definition infer_document_topic_distribution (db : store) : store :=
  foldl (λ db d,
    match tokens d with
    | Present toks => insert_one_to_collection Publications (insert_doc_of d toks) db
    | _ => db
    end)
  db (read_collection Publications_raw db).
End inference.

(** ** Decidable equality of the data, for evaluating the code on
    concrete records *)

#[global] Instance exn_eq_dec : EqDecision exn.
Proof. solve_decision. Defined.
#[global] Instance result_eq_dec `{EqDecision A} : EqDecision (result A).
Proof. solve_decision. Defined.
#[global] Instance field_eq_dec `{EqDecision A} : EqDecision (field A).
Proof. solve_decision. Defined.
#[global] Instance document_eq_dec : EqDecision document.
Proof. solve_decision. Defined.
#[global] Instance title_row_eq_dec : EqDecision title_row.
Proof. solve_decision. Defined.
#[global] Instance DataFrame_eq_dec : EqDecision DataFrame.
Proof. solve_decision. Defined.
#[global] Instance store_eq_dec : EqDecision store.
Proof. solve_decision. Defined.

(** Closed equations are settled by evaluation. *)
Ltac by_evaluation := apply (bool_decide_unpack _); vm_compute; exact I.

(** A fraction in lowest terms. *)
Definition frac (a : Z) (b : positive) : Qc := Q2Qc (a # b).

(** ** Notions used in the statements *)

Definition key_le {A} : relation (Z * A) := λ a b, (a.1 ≤ b.1)%Z.

(** The mapping [items] carries the integer ids [ids], item by item. *)
Definition has_ids (items : topic_items) (ids : list Z) : Prop :=
  Forall2 (λ kv z, parse_int kv.1 = Some z) items ids.

Definition sparse_0_2 : topic_items := [("0", frac 1 2); ("2", frac 1 2)].

Definition add_to_bucket `{Countable K} {V} (m : gmap K (list V)) (kv : K * V) : gmap K (list V) :=
  <[kv.1 := default [] (m !! kv.1) ++ [kv.2]]> m.

Definition bucket `{Countable K} {V} (k : K) (kvs : list (K * V)) : list V :=
  (filter (λ kv, kv.1 = k) kvs).*2.

(** The shape shared by the three grouping loops: a document
    contributes a vector under a key, is skipped, or raises. *)
Definition group_step `{Countable K} {V} (contribution : document → result (option (K * V)))
    (m : gmap K (list V)) (d : document) : result (gmap K (list V)) :=
  r ← contribution d; mret (from_option (add_to_bucket m) m r).

Definition year_contribution (d : document) : result (option (Z * list Qc)) :=
  items ← topics_iteritems d;
  topics ← sorted_topic_values items;
  mret (Some (year d, topics)).

Definition journal_contribution (d : document) : result (option (string * list Qc)) :=
  match topics d with
  | Present items => topics ← sorted_topic_values items; mret (Some (journal d, topics))
  | _ => mret None
  end.

Definition dominant_contribution (d : document) : result (option (nat * list Qc)) :=
  items ← topics_iteritems d;
  topics ← sorted_topic_values items;
  max_topic_id ← max_topic_id_of topics;
  mret (Some (max_topic_id, topics)).

Definition group_reduce `{Countable K} (contribution : document → result (option (K * list Qc)))
    (f : list (list Qc) → result (list Qc)) (D : list document) : result (gmap K (list Qc)) :=
  mapM contribution D ≫= λ rs, reduce_buckets f (foldl add_to_bucket ∅ (omap id rs)).

(** Every stored probability of every document of [D] lies in [[0,1]]. *)
Definition probabilities_in_unit (D : list document) : Prop :=
  ∀ d items kv, d ∈ D → topics d = Present items → kv ∈ items → 0 ≤ kv.2 ≤ 1.

Definition doc_one : document := Document "J" 2000 "T" Absent (Present [("0", 1)]).

Definition in_unit_check (D : list document) : bool :=
  forallb (λ d,
    match topics d with
    | Present items => forallb (λ kv : string * Qc, bool_decide (0 ≤ kv.2 ≤ 1)) items
    | _ => true
    end) D.

Definition doc_a : document :=
  Document "Fish and Fisheries" 2000 "A" Absent (Present [("1", frac 1 2); ("0", frac 1 2)]).
Definition doc_b : document :=
  Document "Fish and Fisheries" 2000 "B" Absent (Present [("1", frac 3 4); ("0", frac 1 4)]).
Definition doc_c : document :=
  Document "Fisheries Research" 2001 "C" Absent (Present [("0", frac 1 5); ("1", frac 4 5)]).

Definition doc_5 : document :=
  Document "J" 2000 "T" Absent (Present [("0", frac 3 10); ("5", frac 7 10)]).

Definition doc_without_topics : document :=
  Document "Fish and Fisheries" 2000 "N" Absent Absent.

Definition title_row_of (d : document) : result title_row :=
  dominant ← dominant_topic d;
  mret (TitleRow (year d) (title d) (journal d) dominant.1 dominant.2).

Definition doc_empty : document := Document "J" 2000 "E" Absent (Present []).

(** The row of the titles table that belongs to a record: year, title
    and journal of the record, and an item of its mapping, key and
    value as stored, that is the first one in the iteration order of
    the mapping whose probability no other item exceeds. *)
Definition title_row_matches (d : document) (row : title_row) : Prop :=
  row_year row = year d ∧ row_title row = title d ∧ row_journal row = journal d ∧
  ∃ items l1 l2, topics d = Present items ∧
    (dominant_topic_id row, dominant_topic_percentage row) ∈ items ∧
    items = l1 ++ (dominant_topic_id row, dominant_topic_percentage row) :: l2 ∧
    Forall (λ kv, kv.2 < dominant_topic_percentage row) l1 ∧
    Forall (λ kv, kv.2 ≤ dominant_topic_percentage row) l2.

Definition doc_3 : document :=
  Document "Fish and Fisheries" 2018 "Narrow lenses" Absent
    (Present [("1", frac 1 10); ("3", frac 6 10); ("0", frac 3 10)]).

(** A record whose keys are not the decimal notation of an id. *)
Definition doc_03 : document :=
  Document "Fish and Fisheries" 2018 "Leading zero" Absent
    (Present [("1", frac 1 10); ("03", frac 6 10); ("x", frac 3 10)]).

Definition raw_with_tokens : document :=
  Document "Fish and Fisheries" 2018 "Narrow lenses" (Present ["fishery"; "model"]) Absent.
Definition raw_without_tokens : document :=
  Document "Fisheries Research" 2017 "Untokenized" Null Absent.
Definition two_topics (toks : list string) : list (Z * Qc) :=
  [(0%Z, frac 1 4); (3%Z, frac 3 4)].

Definition cum_two_topics : gmap nat (list Qc) :=
  {[ 0%nat := [frac 50 1; frac 50 1]; 1%nat := [frac 25 1; frac 75 1] ]}.

(** The record derived from a raw record, if it has tokens. *)
Definition derived_record (get_document_topics : list string → list (Z * Qc))
    (d : document) : option document :=
  match tokens d with
  | Present toks => Some (insert_doc_of get_document_topics d toks)
  | _ => None
  end.

(** The columns of the co-occurrence frame once the rows before [i]
    are done, and the frame they form with the column of row maxima. *)
Definition suppressed_columns (get_topic_label : nat → string) (cum : gmap nat (list Qc))
    (i : nat) : list (string * list Qc) :=
  (λ kv, (get_topic_label kv.1, if decide (kv.1 < i)%nat then <[kv.1 := 0]> kv.2 else kv.2))
    <$> map_to_list cum.

Definition frame_at (get_topic_label : nat → string) (n : nat) (cum : gmap nat (list Qc))
    (i : nat) (maxcol : list Qc) : DataFrame :=
  Frame (get_topic_label <$> seq 0 n)
        (suppressed_columns get_topic_label cum i ++ [("max", maxcol)]).

(** ** Notions used in the further statements *)

(** A record whose topic mapping is present and has integer literals
    for keys: the aggregation passes read it without raising. *)
Definition readable (d : document) : Prop :=
  ∃ items, topics d = Present items ∧ Forall (λ kv, is_Some (parse_int kv.1)) items.

(** The number of topics a record stores. *)
Definition topic_count (d : document) : nat :=
  match topics d with
  | Present items => length items
  | _ => 0%nat
  end.

Definition three_topics (toks : list string) : list (Z * Qc) :=
  [(2%Z, frac 1 2); (0%Z, frac 1 3); (1%Z, frac 1 6)].

Definition year_buckets : gmap Z (list (list Qc)) :=
  {[ 2000%Z := [[frac 1 2; frac 1 2]; [frac 1 4; frac 3 4]];
     2001%Z := [[frac 1 5; frac 4 5]] ]}.

(** The stored probabilities of every record of [D] add up to [s]. *)
Definition sums_to (s : Qc) (D : list document) : Prop :=
  ∀ d items, d ∈ D → topics d = Present items → sum_list items.*2 = s.

Definition sums_to_check (s : Qc) (D : list document) : bool :=
  forallb (λ d,
    match topics d with
    | Present items => bool_decide (sum_list items.*2 = s)
    | _ => true
    end) D.

(** Two runs of a summary come about together, and then have the same
    keys and, under every key, vectors of the same length. *)
Definition same_shape `{Countable K} (r2 r1 : result (gmap K (list Qc))) : Prop :=
  (succeeds r2 ↔ succeeds r1) ∧
  ∀ c2 c1, r2 = Ok c2 → r1 = Ok c1 →
    dom c2 = dom c1 ∧
    ∀ k v2 v1, c2 !! k = Some v2 → c1 !! k = Some v1 → length v2 = length v1.

(** * Properties of the embedding *)

(** ** The error monad and loops *)

Lemma Ok_bind {A B} (f : A → result B) (a : A) : Ok a ≫= f = f a.
Proof. done. Qed.

Lemma mret_bind {A B} (f : A → result B) (a : A) : mret a ≫= f = f a.
Proof. done. Qed.

Lemma Raise_bind {A B} (f : A → result B) (e : exn) : Raise e ≫= f = Raise e.
Proof. done. Qed.

Lemma for_each_cons {S A} (body : S → A → result S) (s : S) (x : A) (l : list A) :
  for_each body s (x :: l) = body s x ≫= λ s', for_each body s' l.
Proof. done. Qed.

Lemma bind_Ok {A B} (f : A → result B) (r : result A) (b : B) :
  r ≫= f = Ok b ↔ ∃ a, r = Ok a ∧ f a = Ok b.
Proof.
  destruct r as [a|e]; simpl; split.
  - intros Hf. by exists a.
  - by intros (a' & [= <-] & Hf).
  - done.
  - by intros (a' & [=] & _).
Qed.

Lemma fmap_Ok {A B} (f : A → B) (r : result A) (b : B) :
  f <$> r = Ok b ↔ ∃ a, r = Ok a ∧ b = f a.
Proof.
  destruct r as [a|e]; simpl; split.
  - intros [= <-]. by exists a.
  - by intros (a' & [= <-] & ->).
  - done.
  - by intros (a' & [=] & _).
Qed.

Lemma result_cases {A} (r : result A) : succeeds r ∨ raises r.
Proof. destruct r as [a|e]; [left; by exists a | right; by exists e]. Qed.

Lemma succeeds_not_raises {A} (r : result A) : succeeds r → ¬ raises r.
Proof. intros [a ->] [e [=]]. Qed.

Lemma mapM_cons {A B} (f : A → result B) (x : A) (l : list A) :
  mapM f (x :: l) = f x ≫= λ y, mapM f l ≫= λ k, mret (y :: k).
Proof. done. Qed.

Lemma mapM_Ok {A B} (f : A → result B) (l : list A) (k : list B) :
  mapM f l = Ok k ↔ Forall2 (λ x y, f x = Ok y) l k.
Proof.
  revert k. induction l as [|x l IH]; intros k.
  - split; [intros [= <-]; constructor | by inversion 1].
  - rewrite mapM_cons. split.
    + intros (y & Hy & (k' & Hk' & [= <-])%bind_Ok)%bind_Ok.
      constructor; [done | by apply IH].
    + inversion 1 as [|? y ? k' Hy Hk']; simplify_eq.
      rewrite Hy; simpl. apply IH in Hk'. by rewrite Hk'.
Qed.

Lemma mapM_succeeds {A B} (f : A → result B) (l : list A) :
  succeeds (mapM f l) ↔ Forall (λ x, succeeds (f x)) l.
Proof.
  induction l as [|x l IH].
  - split; [constructor | by exists []].
  - rewrite mapM_cons, Forall_cons, <- IH. split.
    + intros [k (y & Hy & (k' & Hk' & _)%bind_Ok)%bind_Ok].
      split; [by exists y | by exists k'].
    + intros [[y ->] [k' ->]]. by exists (y :: k').
Qed.

Lemma mapM_Permutation {A B} (f : A → result B) (l l' : list A) (k : list B) :
  l ≡ₚ l' → mapM f l = Ok k → ∃ k', mapM f l' = Ok k' ∧ k ≡ₚ k'.
Proof.
  intros Hl. revert k. induction Hl as [|x l l' _ IH|x y l|l l' l'' _ IH1 _ IH2]; intros k.
  - intros [= <-]. by exists [].
  - rewrite !mapM_cons.
    intros (y & Hy & (k1 & Hk1 & [= <-])%bind_Ok)%bind_Ok.
    destruct (IH _ Hk1) as (k1' & Hk1' & Hp).
    exists (y :: k1'). rewrite Hy, Hk1'. split; [done | by constructor].
  - rewrite !mapM_cons.
    intros (y' & Hy' & (k1 & (x' & Hx' & (k2 & Hk2 & [= <-])%bind_Ok)%bind_Ok
      & [= <-])%bind_Ok)%bind_Ok.
    exists (x' :: y' :: k2). rewrite Hx', Hy', Hk2. split; [done | constructor].
  - intros Hk. destruct (IH1 _ Hk) as (k' & Hk' & Hp1).
    destruct (IH2 _ Hk') as (k'' & Hk'' & Hp2).
    exists k''. split; [done | by etrans].
Qed.

Lemma for_each_ext {S A} (body body' : S → A → result S) (s : S) (l : list A) :
  (∀ s x, body s x = body' s x) → for_each body s l = for_each body' s l.
Proof.
  intros Hb. revert s. induction l as [|x l IH]; intros s; simpl; [done|].
  rewrite Hb. destruct (body' s x); simpl; auto.
Qed.

Lemma for_each_app {S A} (body : S → A → result S) (s : S) (l1 l2 : list A) :
  for_each body s (l1 ++ l2) = for_each body s l1 ≫= λ s', for_each body s' l2.
Proof.
  revert s. induction l1 as [|x l1 IH]; intros s; simpl; [done|].
  destruct (body s x); simpl; auto.
Qed.

(** A loop raises as soon as the body raises on one of its elements,
    whatever the accumulator is by then. *)
Lemma for_each_raises {S A} (body : S → A → result S) (s : S) (l : list A) (x : A) :
  x ∈ l → (∀ s', raises (body s' x)) → raises (for_each body s l).
Proof.
  intros Hx Hraise. revert s. induction l as [|y l IH]; intros s.
  - by apply elem_of_nil in Hx.
  - simpl. apply elem_of_cons in Hx as [<-|Hx].
    + destruct (Hraise s) as [e ->]. by exists e.
    + destruct (body s y) as [s'|e]; simpl; [by apply IH | by exists e].
Qed.

Lemma for_each_invariant {S A} (P : S → Prop) (body : S → A → result S)
    (s s' : S) (l : list A) :
  P s → (∀ s1 x s2, x ∈ l → P s1 → body s1 x = Ok s2 → P s2) →
  for_each body s l = Ok s' → P s'.
Proof.
  revert s. induction l as [|x l IH]; intros s Hs Hstep; simpl.
  - by intros [= <-].
  - intros (s1 & Hs1 & Hrest)%bind_Ok.
    apply (IH s1); [| |done].
    + apply (Hstep s x s1); [by left | done | done].
    + intros s2 y s3 Hy. apply Hstep. by right.
Qed.

(** ** Sorting by key *)

Lemma insert_by_key_Permutation {A} (x : Z * A) (l : list (Z * A)) :
  insert_by_key x l ≡ₚ x :: l.
Proof.
  induction l as [|y l IH]; simpl; [done|].
  case_match; [done|]. rewrite IH. apply Permutation_swap.
Qed.

Lemma sort_by_key_Permutation {A} (l : list (Z * A)) : sort_by_key l ≡ₚ l.
Proof.
  induction l as [|x l IH]; simpl; [done|].
  by rewrite insert_by_key_Permutation, IH.
Qed.

Lemma insert_by_key_sorted {A} (x : Z * A) (l : list (Z * A)) :
  StronglySorted key_le l → StronglySorted key_le (insert_by_key x l).
Proof.
  induction 1 as [|y l Hl IH Hy]; simpl.
  - repeat constructor.
  - destruct (Z.leb_spec x.1 y.1) as [Hle|Hlt].
    + constructor; [by constructor|].
      constructor; [done|].
      eapply Forall_impl; [exact Hy|]. unfold key_le. intros; simpl in *; lia.
    + constructor; [done|].
      rewrite insert_by_key_Permutation. constructor; [|done].
      unfold key_le. lia.
Qed.

Lemma sort_by_key_sorted {A} (l : list (Z * A)) : StronglySorted key_le (sort_by_key l).
Proof.
  induction l as [|x l IH]; simpl; [constructor | by apply insert_by_key_sorted].
Qed.

(** The sort is stable: items of equal key keep their order. Any
    stable sort therefore yields the same list. *)
Lemma insert_by_key_filter {A} (z : Z) (x : Z * A) (l : list (Z * A)) :
  filter (λ y, y.1 = z) (insert_by_key x l) = filter (λ y, y.1 = z) (x :: l).
Proof.
  induction l as [|y l IH]; cbn [insert_by_key]; [done|].
  destruct (Z.leb_spec x.1 y.1) as [Hle|Hlt]; [done|].
  rewrite filter_cons, IH, !filter_cons.
  destruct (decide (y.1 = z)), (decide (x.1 = z)); done || lia.
Qed.

Lemma sort_by_key_stable {A} (z : Z) (l : list (Z * A)) :
  filter (λ y, y.1 = z) (sort_by_key l) = filter (λ y, y.1 = z) l.
Proof.
  induction l as [|x l IH]; [done|]. cbn [sort_by_key foldr].
  fold (sort_by_key l). by rewrite insert_by_key_filter, !filter_cons, IH.
Qed.

Lemma StronglySorted_seqZ (m n : Z) : StronglySorted Z.le (seqZ m n).
Proof.
  unfold seqZ. generalize (Z.to_nat n) as len. generalize 0%nat as start.
  intros start len. revert start. induction len as [|len IH]; intros start; simpl.
  - constructor.
  - constructor; [apply IH|].
    apply Forall_fmap, Forall_forall. intros i [Hi _]%elem_of_seq. simpl. lia.
Qed.

(** ** The topic vector of a document *)

Lemma py_int_Ok (s : string) (z : Z) : py_int s = Ok z ↔ parse_int s = Some z.
Proof. unfold py_int. destruct (parse_int s); split; congruence. Qed.

Lemma int_keyed_has_ids (items : topic_items) (ids : list Z) :
  has_ids items ids → int_keyed items = Ok (zip ids items).
Proof.
  intros Hids. apply mapM_Ok.
  induction Hids as [|kv z items ids Hz _ IH]; simpl; constructor; [|done].
  apply py_int_Ok in Hz. by rewrite Hz.
Qed.

Lemma int_keyed_Ok (items : topic_items) (keyed : list (Z * (string * Qc))) :
  int_keyed items = Ok keyed → has_ids items keyed.*1 ∧ keyed.*2 = items.
Proof.
  intros Hk%mapM_Ok. induction Hk as [|kv kx items keyed Hkx _ [IH1 IH2]]; csimpl.
  - split; [constructor | done].
  - apply bind_Ok in Hkx as (z & Hz%py_int_Ok & [= <-]). csimpl.
    split; [by constructor | by rewrite IH2].
Qed.

Lemma int_keyed_succeeds (items : topic_items) :
  succeeds (int_keyed items) ↔ Forall (λ kv, is_Some (parse_int kv.1)) items.
Proof.
  unfold int_keyed. rewrite mapM_succeeds. apply Forall_proper; [|done].
  intros kv. unfold py_int. destruct (parse_int kv.1) as [z|]; simpl.
  - split; [by eexists | intros _; by eexists].
  - split; [by intros [? [=]] | by intros [? [=]]].
Qed.

Lemma sorted_by_int_key_has_ids (items : topic_items) (ids : list Z) :
  has_ids items ids →
  sorted_by_int_key items = Ok (sort_by_key (zip ids items)).*2.
Proof. intros Hids. unfold sorted_by_int_key. by rewrite (int_keyed_has_ids _ ids). Qed.

Lemma sorted_by_int_key_Permutation (items sorted : topic_items) :
  sorted_by_int_key items = Ok sorted → sorted ≡ₚ items.
Proof.
  intros (keyed & [_ Hk]%int_keyed_Ok & [= <-])%bind_Ok.
  by rewrite sort_by_key_Permutation, Hk.
Qed.

Lemma sorted_topic_values_Permutation (items : topic_items) (v : list Qc) :
  sorted_topic_values items = Ok v → v ≡ₚ items.*2.
Proof.
  intros (sorted & Hs%sorted_by_int_key_Permutation & [= <-])%bind_Ok.
  by rewrite Hs.
Qed.

Lemma sorted_topic_values_succeeds (items : topic_items) :
  succeeds (sorted_topic_values items) ↔ Forall (λ kv, is_Some (parse_int kv.1)) items.
Proof.
  rewrite <- int_keyed_succeeds. unfold sorted_topic_values, sorted_by_int_key.
  destruct (int_keyed items) as [keyed|e]; simpl.
  - split; intros _; by eexists.
  - split; intros [? [=]].
Qed.

Lemma has_ids_elem_of (items : topic_items) (ids : list Z) (kv : string * Qc) :
  has_ids items ids → kv ∈ items → ∃ z, parse_int kv.1 = Some z ∧ (z, kv) ∈ zip ids items.
Proof.
  induction 1 as [|kv' z items ids Hz _ IH]; intros Hin.
  - by apply elem_of_nil in Hin.
  - apply elem_of_cons in Hin as [->|Hin].
    + exists z. split; [done | left].
    + destruct (IH Hin) as (z' & Hz' & Hin'). exists z'. split; [done | by right].
Qed.

Lemma sorted_keys_complete (K : nat) (keyed : list (Z * (string * Qc))) :
  keyed.*1 ≡ₚ seqZ 0 (Z.of_nat K) →
  (sort_by_key keyed).*1 = seqZ 0 (Z.of_nat K).
Proof.
  intros Hperm. apply (StronglySorted_unique Z.le).
  - apply StronglySorted_fmap with (R1 := key_le); [by intros ?? | apply sort_by_key_sorted].
  - apply StronglySorted_seqZ.
  - by rewrite sort_by_key_Permutation.
Qed.

Lemma has_ids_zip (items : topic_items) (ids : list Z) :
  has_ids items ids → Forall (λ kx, parse_int kx.2.1 = Some kx.1) (zip ids items).
Proof. induction 1; simpl; by constructor. Qed.

Lemma filter_keyed_snd (z : Z) (keyed : list (Z * (string * Qc))) :
  Forall (λ kx, parse_int kx.2.1 = Some kx.1) keyed →
  filter (λ kv, parse_int kv.1 = Some z) keyed.*2 = (filter (λ kx, kx.1 = z) keyed).*2.
Proof.
  induction 1 as [|[z' kv] keyed Hkx _ IH]; [done|]. csimpl in *.
  rewrite !filter_cons, IH. cbn [fst snd]. rewrite Hkx.
  destruct (decide (z' = z)) as [->|Hne].
  - by rewrite decide_True.
  - rewrite decide_False; [done | congruence].
Qed.

(** The vector is the values of the items in a stable ascending order
    of the integers their keys denote. *)
Lemma sorted_topic_values_sorted (items : topic_items) (v : list Qc) :
  sorted_topic_values items = Ok v →
  ∃ sorted ids,
    v = sorted.*2 ∧ sorted ≡ₚ items ∧ has_ids sorted ids ∧ StronglySorted Z.le ids ∧
    ∀ z, filter (λ kv, parse_int kv.1 = Some z) sorted
         = filter (λ kv, parse_int kv.1 = Some z) items.
Proof.
  intros (sorted & Hsorted & [= <-])%bind_Ok.
  pose proof (sorted_by_int_key_Permutation _ _ Hsorted) as Hperm.
  apply bind_Ok in Hsorted as (keyed & Hkeyed & [= <-]).
  apply int_keyed_Ok in Hkeyed as [Hids <-].
  assert (keyed = zip keyed.*1 keyed.*2) as Hzip by (by rewrite zip_fst_snd).
  assert (Forall (λ kx, parse_int kx.2.1 = Some kx.1) keyed) as Hparse.
  { rewrite Hzip. by apply has_ids_zip. }
  assert (Forall (λ kx, parse_int kx.2.1 = Some kx.1) (sort_by_key keyed)) as Hparse'.
  { by rewrite sort_by_key_Permutation. }
  exists (sort_by_key keyed).*2, (sort_by_key keyed).*1.
  split; [done|]. split; [done|]. split; [|split].
  - unfold has_ids. apply Forall2_fmap, Forall_Forall2_diag.
    eapply Forall_impl; [exact Hparse'|]. done.
  - apply StronglySorted_fmap with (R1 := key_le); [by intros ?? | apply sort_by_key_sorted].
  - intros z. rewrite !filter_keyed_snd by done. by rewrite sort_by_key_stable.
Qed.

(** In an ascending list without repetitions an element sits at the
    index that counts the elements below it. *)
Lemma StronglySorted_rank (l : list Z) (j : nat) (z : Z) :
  StronglySorted Z.le l → NoDup l → l !! j = Some z →
  length (filter (λ z', (z' < z)%Z) l) = j.
Proof.
  intros Hl. revert j. induction Hl as [|x l _ IH Hx]; intros j Hnd Hj; [done|].
  apply NoDup_cons in Hnd as [Hxl Hnd]. rewrite filter_cons.
  destruct j as [|j]; simpl in Hj.
  - injection Hj as ->. rewrite decide_False by lia.
    destruct (filter (λ z', (z' < z)%Z) l) as [|y l'] eqn:Hf; [done|].
    assert (y ∈ filter (λ z', (z' < z)%Z) l) as Hy by (rewrite Hf; left).
    apply list_elem_of_filter in Hy as [Hlt Hy].
    pose proof (proj1 (Forall_forall _ _) Hx y Hy). lia.
  - assert (z ∈ l) as Hz by (by eapply list_elem_of_lookup_2).
    pose proof (proj1 (Forall_forall _ _) Hx z Hz) as Hle.
    assert (x ≠ z) by (by intros ->).
    rewrite decide_True by lia. simpl. f_equal. by apply IH.
Qed.

(** With distinct ids, the probability stored for id [z] sits at the
    index that counts the stored ids below [z], whatever [z] is. *)
Lemma sorted_topic_values_rank (items : topic_items) (ids : list Z) (v : list Qc)
    (key : string) (p : Qc) (z : Z) :
  has_ids items ids → NoDup ids → sorted_topic_values items = Ok v →
  (key, p) ∈ items → parse_int key = Some z →
  v !! length (filter (λ z', (z' < z)%Z) ids) = Some p.
Proof.
  intros Hids Hnd Hv Hin Hkey.
  pose proof (Forall2_length _ _ _ Hids) as Hlen.
  set (keyed := sort_by_key (zip ids items)).
  assert (v = keyed.*2.*2) as ->.
  { unfold sorted_topic_values in Hv.
    rewrite (sorted_by_int_key_has_ids _ ids Hids), Ok_bind in Hv. by injection Hv. }
  assert (keyed.*1 ≡ₚ ids) as Hperm.
  { unfold keyed. rewrite sort_by_key_Permutation, fst_zip; [done | lia]. }
  destruct (has_ids_elem_of _ _ _ Hids Hin) as (z' & Hz' & Hzin). simpl in Hz'.
  assert (z' = z) as -> by congruence.
  rewrite <- (sort_by_key_Permutation (zip ids items)) in Hzin. fold keyed in Hzin.
  apply list_elem_of_lookup in Hzin as [j Hj].
  assert (length (filter (λ z', (z' < z)%Z) ids) = j) as ->.
  { rewrite <- Hperm. apply StronglySorted_rank.
    - apply StronglySorted_fmap with (R1 := key_le); [by intros ?? | apply sort_by_key_sorted].
    - by rewrite Hperm.
    - by rewrite list_lookup_fmap, Hj. }
  by rewrite !list_lookup_fmap, Hj.
Qed.

(** Claim C1, as amended. The topic vector of a mapping whose keys are
    integer literals lists the stored probabilities in ascending id
    order, one entry per stored id: it is the list of values of a
    rearrangement of the items that is ascending in the integers the
    keys denote and keeps the order of items of equal id, so nothing is
    filled in for an absent id and nothing is left out. With distinct
    ids, the probability of id [z] sits at the index that counts the
    stored ids below [z]. When the ids present are exactly
    [0 .. K-1], the vector has length [K] and its entry at index [i]
    is the probability stored for id [i]. *)
Theorem sorted_topic_values_complete_ids (items : topic_items) (ids : list Z) :
  has_ids items ids →
  ∃ v, sorted_topic_values items = Ok v ∧ length v = length items ∧
    (∃ sorted ids',
       v = sorted.*2 ∧ sorted ≡ₚ items ∧ has_ids sorted ids' ∧ StronglySorted Z.le ids' ∧
       ∀ z, filter (λ kv, parse_int kv.1 = Some z) sorted
            = filter (λ kv, parse_int kv.1 = Some z) items) ∧
    (NoDup ids →
       ∀ (key : string) (p : Qc) (z : Z),
         (key, p) ∈ items → parse_int key = Some z →
         v !! length (filter (λ z', (z' < z)%Z) ids) = Some p) ∧
    ∀ K : nat, ids ≡ₚ seqZ 0 (Z.of_nat K) →
      length v = K ∧
      ∀ (i : nat) (key : string) (p : Qc),
        (key, p) ∈ items → parse_int key = Some (Z.of_nat i) → v !! i = Some p.
Proof.
  intros Hids. pose proof (Forall2_length _ _ _ Hids) as Hlen.
  set (keyed := zip ids items).
  assert (sorted_topic_values items = Ok (sort_by_key keyed).*2.*2) as Hv.
  { unfold sorted_topic_values. by rewrite (sorted_by_int_key_has_ids _ ids). }
  exists (sort_by_key keyed).*2.*2. split; [done|]. split; [|split; [|split]].
  - rewrite !length_fmap, sort_by_key_Permutation. unfold keyed.
    rewrite length_zip. lia.
  - by apply sorted_topic_values_sorted.
  - intros Hnd key p z Hin Hkey. by apply (sorted_topic_values_rank items ids _ key p z).
  - intros K HK.
    assert ((sort_by_key keyed).*1 = seqZ 0 (Z.of_nat K)) as Hkeys.
    { apply sorted_keys_complete. unfold keyed. rewrite fst_zip by lia. done. }
    split.
    + rewrite !length_fmap, <- (length_fmap fst), Hkeys, length_seqZ. lia.
    + intros i key p Hin Hkey.
      destruct (has_ids_elem_of _ _ _ Hids Hin) as (z & Hz & Hzin). simpl in Hz.
      assert (z = Z.of_nat i) as -> by congruence.
      fold keyed in Hzin. rewrite <- (sort_by_key_Permutation keyed) in Hzin.
      apply list_elem_of_lookup in Hzin as [j Hj].
      assert ((sort_by_key keyed).*1 !! j = Some (Z.of_nat i)) as Hj1.
      { by rewrite list_lookup_fmap, Hj. }
      rewrite Hkeys in Hj1. apply lookup_seqZ in Hj1 as [Hij _].
      assert (j = i) as -> by lia.
      by rewrite !list_lookup_fmap, Hj.
Qed.

Lemma sorted_topic_values_complete_ids_witness :
  ∃ v, sorted_topic_values [("1", frac 3 4); ("0", frac 1 4)] = Ok v ∧
       v !! 0%nat = Some (frac 1 4) ∧ v !! 1%nat = Some (frac 3 4).
Proof.
  destruct (sorted_topic_values_complete_ids
              [("1", frac 3 4); ("0", frac 1 4)] [1; 0]%Z) as (v & Hv & _ & _ & _ & HK).
  { repeat constructor. }
  destruct (HK 2%nat) as [_ Hentries].
  { apply Permutation_swap. }
  exists v. split; [done|]. split.
  - apply (Hentries 0%nat "0"); [by right; left | reflexivity].
  - apply (Hentries 1%nat "1"); [by left | reflexivity].
Defined.

(** Claim C1 as stated fails: the ids [0] and [2] lie in [[0,3)], yet
    the vector has length 2 rather than 3, and its entry at index 1 is
    the probability of id 2 although id 1 is absent. *)
Lemma sorted_topic_values_no_zero_fill :
  has_ids sparse_0_2 [0; 2]%Z ∧ Forall (λ z, 0 ≤ z < 3)%Z [0; 2]%Z ∧
  sorted_topic_values sparse_0_2 = Ok [frac 1 2; frac 1 2] ∧
  length [frac 1 2; frac 1 2] ≠ 3%nat ∧
  [frac 1 2; frac 1 2] !! 1%nat ≠ Some 0.
Proof.
  split; [repeat constructor|]. split; [repeat constructor; lia|].
  split; [by_evaluation|]. split; [simpl; lia|]. by intros [=].
Qed.

(** ** Buckets and grouping passes *)

Section grouping.
Context `{Countable K} {V : Type}.
Implicit Types (m : gmap K (list V)) (kvs : list (K * V)).

Lemma append_to_ensure_key k v m :
  append_to k v (ensure_key k m) = add_to_bucket m (k, v).
Proof.
  unfold append_to, ensure_key, add_to_bucket. simpl. apply map_eq. intros k'.
  destruct (decide (k = k')) as [<-|Hne].
  - rewrite lookup_alter_eq, lookup_insert_eq.
    case_decide as Hk.
    + destruct Hk as [b Hb]. by rewrite Hb.
    + apply eq_None_not_Some in Hk. by rewrite lookup_insert_eq, Hk.
  - rewrite lookup_alter_ne, lookup_insert_ne by done.
    case_decide; [done | by rewrite lookup_insert_ne].
Qed.

Lemma bucket_nil k : bucket k ([] : list (K * V)) = [].
Proof. done. Qed.

Lemma bucket_cons k kv kvs :
  bucket k (kv :: kvs) = if decide (kv.1 = k) then kv.2 :: bucket k kvs else bucket k kvs.
Proof. unfold bucket. rewrite filter_cons. by case_decide. Qed.

Lemma bucket_Permutation k kvs kvs' : kvs ≡ₚ kvs' → bucket k kvs ≡ₚ bucket k kvs'.
Proof. intros Hp. unfold bucket. by rewrite Hp. Qed.

Lemma elem_of_bucket k v kvs : v ∈ bucket k kvs ↔ (k, v) ∈ kvs.
Proof.
  unfold bucket. rewrite list_elem_of_fmap. split.
  - intros ([k' v'] & -> & [Hk Hin]%list_elem_of_filter). simpl in *. by subst.
  - intros Hin. exists (k, v). split; [done|]. by apply list_elem_of_filter.
Qed.

Lemma lookup_foldl_add_to_bucket kvs m k :
  foldl add_to_bucket m kvs !! k =
    if decide (bucket k kvs = []) then m !! k
    else Some (default [] (m !! k) ++ bucket k kvs).
Proof.
  revert m. induction kvs as [|[k' v] kvs IH]; intros m; cbn [foldl].
  - by rewrite decide_True.
  - rewrite IH, bucket_cons. unfold add_to_bucket at 1 2. cbn [fst snd].
    destruct (decide (k' = k)) as [->|Hne].
    + rewrite lookup_insert_eq. simpl.
      case_decide as Hb.
      * by rewrite Hb.
      * by rewrite <- (assoc_L (++)).
    + by rewrite lookup_insert_ne.
Qed.

Lemma lookup_grouped kvs k :
  foldl add_to_bucket (∅ : gmap K (list V)) kvs !! k =
    if decide (bucket k kvs = []) then None else Some (bucket k kvs).
Proof. rewrite lookup_foldl_add_to_bucket, lookup_empty. done. Qed.

Variable contribution : document → result (option (K * V)).

Lemma for_each_group_step (D : list document) m :
  for_each (group_step contribution) m D =
    mapM contribution D ≫= λ rs, mret (foldl add_to_bucket m (omap id rs)).
Proof.
  revert m. induction D as [|d D IH]; intros m; [reflexivity|].
  rewrite mapM_cons, for_each_cons.
  change (group_step contribution m d)
    with (contribution d ≫= λ r, mret (from_option (add_to_bucket m) m r)).
  destruct (contribution d) as [[kv|]|e];
    rewrite ?Ok_bind, ?mret_bind, ?Raise_bind; [| |done].
  - rewrite IH. by destruct (mapM contribution D).
  - rewrite IH. by destruct (mapM contribution D).
Qed.
End grouping.

Lemma get_year_to_topics_grouped (D : list document) :
  get_year_to_topics D =
    mapM year_contribution D ≫= λ rs, mret (foldl add_to_bucket ∅ (omap id rs)).
Proof.
  rewrite <- for_each_group_step. apply for_each_ext. intros m d.
  unfold group_step, year_contribution.
  destruct (topics_iteritems d) as [items|e]; simpl; [|done].
  destruct (sorted_topic_values items) as [v|e]; simpl; [|done].
  f_equal. apply append_to_ensure_key.
Qed.

Lemma journal_to_topics_of_grouped (D : list document) :
  journal_to_topics_of D =
    mapM journal_contribution D ≫= λ rs, mret (foldl add_to_bucket ∅ (omap id rs)).
Proof.
  rewrite <- for_each_group_step. apply for_each_ext. intros m d.
  unfold group_step, journal_contribution.
  destruct (topics d) as [| |items]; simpl; [done..|].
  destruct (sorted_topic_values items) as [v|e]; simpl; [|done].
  f_equal. apply append_to_ensure_key.
Qed.

Lemma dominant_id_to_topics_of_grouped (D : list document) :
  dominant_id_to_topics_of D =
    mapM dominant_contribution D ≫= λ rs, mret (foldl add_to_bucket ∅ (omap id rs)).
Proof.
  rewrite <- for_each_group_step. apply for_each_ext. intros m d.
  unfold group_step, dominant_contribution.
  destruct (topics_iteritems d) as [items|e]; simpl; [|done].
  destruct (sorted_topic_values items) as [v|e]; simpl; [|done].
  destruct (max_topic_id_of v) as [i|e]; simpl; [|done].
  f_equal. apply append_to_ensure_key.
Qed.

(** ** The reducers *)

Section reduce.
Context `{Countable K}.
Variable f : list (list Qc) → result (list Qc).

Lemma reduce_list_lookup (l : list (K * list (list Qc))) (c0 c : gmap K (list Qc)) :
  NoDup l.*1 → for_each (reduce_body f) c0 l = Ok c →
  ∀ k, (∀ v, (k, v) ∈ l → ∃ y, f v = Ok y ∧ c !! k = Some y)
       ∧ (k ∉ l.*1 → c !! k = c0 !! k).
Proof.
  revert c0. induction l as [|[k0 v0] l IH]; intros c0 Hnd Hc k.
  - injection Hc as <-. split; [|done]. intros v Hin. by apply elem_of_nil in Hin.
  - rewrite for_each_cons in Hc.
    apply bind_Ok in Hc as (c1 & (y0 & Hy0 & [= <-])%bind_Ok & Hc).
    apply NoDup_cons in Hnd as [Hk0 Hnd]. simpl in *.
    destruct (IH _ Hnd Hc k) as [IH1 IH2]. split.
    + intros v [Heq|Hin]%elem_of_cons; [|by apply IH1].
      injection Heq as -> ->.
      rewrite IH2 by done.
      exists y0. by rewrite lookup_insert_eq.
    + intros [Hne Hnin]%not_elem_of_cons.
      rewrite IH2 by done. by rewrite lookup_insert_ne.
Qed.

Lemma reduce_list_succeeds (l : list (K * list (list Qc))) (c0 : gmap K (list Qc)) :
  Forall (λ kv, succeeds (f kv.2)) l → succeeds (for_each (reduce_body f) c0 l).
Proof.
  intros Hl. revert c0. induction Hl as [|[k v] l [y Hy] _ IH]; intros c0.
  - by exists c0.
  - rewrite for_each_cons. simpl in Hy.
    change (reduce_body f c0 (k, v)) with (f v ≫= λ y, mret (<[k := y]> c0)).
    rewrite Hy, Ok_bind, mret_bind. apply IH.
Qed.

Lemma reduce_buckets_lookup (m : gmap K (list (list Qc))) (c : gmap K (list Qc)) :
  reduce_buckets f m = Ok c ↔
  ∀ k, option_Forall2 (λ v y, f v = Ok y) (m !! k) (c !! k).
Proof.
  assert (∀ c', reduce_buckets f m = Ok c' →
    ∀ k, option_Forall2 (λ v y, f v = Ok y) (m !! k) (c' !! k)) as Hsound.
  { intros c' Hc' k.
    destruct (reduce_list_lookup _ _ _ (NoDup_fst_map_to_list m) Hc' k) as [H1 H2].
    destruct (m !! k) as [v|] eqn:Hmk.
    - destruct (H1 v) as (y & Hy & ->); [by apply elem_of_map_to_list|].
      by constructor.
    - rewrite H2, lookup_empty; [constructor|].
      intros ([k' v] & -> & Hin%elem_of_map_to_list)%list_elem_of_fmap.
      simpl in *. congruence. }
  split; [apply Hsound|]. intros Hrel.
  destruct (reduce_list_succeeds (map_to_list m) ∅) as [c' Hc'].
  { apply Forall_forall. intros [k v] Hin%elem_of_map_to_list. simpl.
    specialize (Hrel k). rewrite Hin in Hrel. inversion Hrel. by eexists. }
  unfold reduce_buckets. rewrite Hc'. f_equal.
  apply map_eq. intros k. specialize (Hrel k). specialize (Hsound c' Hc' k).
  destruct Hrel as [v y Hy|]; inversion Hsound; congruence.
Qed.
End reduce.

(** ** Column means *)

Lemma sum_list_Permutation (l l' : list Qc) : l ≡ₚ l' → sum_list l = sum_list l'.
Proof.
  unfold sum_list. induction 1 as [|x l l' _ IH|x y l|l l' l'' _ IH1 _ IH2]; simpl.
  - done.
  - by rewrite IH.
  - ring.
  - by rewrite IH1.
Qed.

Lemma column_Permutation (j : nat) (rows rows' : list (list Qc)) :
  rows ≡ₚ rows' → column j rows ≡ₚ column j rows'.
Proof. intros Hp. unfold column. by rewrite Hp. Qed.

Lemma np_mean_axis0_Permutation (rows rows' : list (list Qc)) :
  rows ≡ₚ rows' → np_mean_axis0 rows = np_mean_axis0 rows'.
Proof.
  intros Hp. destruct rows as [|r rows], rows' as [|r' rows'].
  - done.
  - by apply Permutation_nil_cons in Hp.
  - symmetry in Hp. by apply Permutation_nil_cons in Hp.
  - unfold np_mean_axis0.
    assert (∀ (a b : list Qc) (l l' : list (list Qc)), a :: l ≡ₚ b :: l' →
      Forall (λ r0, length r0 = length a) (a :: l) →
      length b = length a ∧ Forall (λ r0, length r0 = length b) (b :: l')) as Hsame.
    { intros a b l l' Hl Hall. rewrite Hl in Hall.
      assert (length b = length a) as Hb by (by inversion Hall).
      split; [done|]. eapply Forall_impl; [exact Hall|]. simpl. congruence. }
    destruct (decide (Forall (λ r0, length r0 = length r) (r :: rows))) as [Hall|Hnall].
    + destruct (Hsame _ _ _ _ Hp Hall) as [Hlen Hall'].
      rewrite !bool_decide_eq_true_2 by done. f_equal.
      rewrite Hlen, (Permutation_length Hp).
      apply list_fmap_ext. intros _ j _. f_equal.
      apply sum_list_Permutation, column_Permutation, Hp.
    + rewrite bool_decide_eq_false_2 by done.
      rewrite bool_decide_eq_false_2; [done|].
      intros Hall'. apply Hnall. symmetry in Hp.
      by destruct (Hsame _ _ _ _ Hp Hall').
Qed.

Lemma mean_percent_Permutation (rows rows' : list (list Qc)) :
  rows ≡ₚ rows' → mean_percent rows = mean_percent rows'.
Proof. intros Hp. unfold mean_percent. by rewrite (np_mean_axis0_Permutation _ _ Hp). Qed.

Lemma Qc_of_nat_S (n : nat) : Qc_of_nat (S n) = Qc_of_nat n + 1.
Proof.
  unfold Qc_of_nat. rewrite Nat2Z.inj_succ, <- Z.add_1_r, Z2Qc_inj_add.
  by rewrite Z2Qc_inj_1.
Qed.

Lemma Qc_of_nat_0 : Qc_of_nat 0 = 0.
Proof. apply Z2Qc_inj_0. Qed.

Lemma Qc_of_nat_pos (n : nat) : (0 < n)%nat → 0 < Qc_of_nat n.
Proof.
  intros Hn. unfold Qc_of_nat. rewrite <- Z2Qc_inj_0.
  apply (proj1 (Z2Qc_inj_lt 0 (Z.of_nat n))). lia.
Qed.

Lemma sum_list_bounds (l : list Qc) (b : Qc) :
  Forall (λ x, 0 ≤ x ≤ b) l → 0 ≤ sum_list l ≤ Qc_of_nat (length l) * b.
Proof.
  induction 1 as [|x l [Hx0 Hx1] _ [IH0 IH1]]; cbn [sum_list foldr length].
  - rewrite Qc_of_nat_0, Qcmult_0_l. split; apply Qcle_refl.
  - fold (sum_list l). rewrite Qc_of_nat_S. split.
    + by apply Qcplus_nonneg_nonneg.
    + replace ((Qc_of_nat (length l) + 1) * b) with (b + Qc_of_nat (length l) * b) by ring.
      by apply Qcplus_le_compat.
Qed.

Lemma Qcdiv_bounds (s n b : Qc) : 0 < n → 0 ≤ s ≤ n * b → 0 ≤ s / n ≤ b.
Proof.
  intros Hn [Hs0 Hs1].
  assert (s / n * n = s) as Hdiv.
  { rewrite Qcmult_comm. apply Qcmult_div_r. by apply not_eq_sym, Qclt_not_eq. }
  split.
  - apply (Qcmult_le_mono_pos_r _ _ n Hn). by rewrite Qcmult_0_l, Hdiv.
  - apply (Qcmult_le_mono_pos_r _ _ n Hn). by rewrite Hdiv, (Qcmult_comm b).
Qed.

Lemma column_mean_bounds (rows : list (list Qc)) (j : nat) (b : Qc) :
  rows ≠ [] → Forall (Forall (λ x, 0 ≤ x ≤ b)) rows → 0 ≤ b →
  0 ≤ sum_list (column j rows) / Qc_of_nat (length rows) ≤ b.
Proof.
  intros Hne Hrows Hb.
  apply Qcdiv_bounds; [apply Qc_of_nat_pos; destruct rows; [done | simpl; lia]|].
  rewrite <- (length_fmap (λ r0 : list Qc, default 0 (r0 !! j)) rows).
  apply sum_list_bounds. unfold column. apply Forall_fmap.
  eapply Forall_impl; [exact Hrows|]. intros r0 Hr0. simpl.
  destruct (r0 !! j) as [x|] eqn:Hx; simpl.
  - eapply Forall_forall in Hr0; [exact Hr0|]. by eapply list_elem_of_lookup_2.
  - split; [apply Qcle_refl | done].
Qed.

Lemma np_mean_axis0_bounds (rows : list (list Qc)) (m : list Qc) (b : Qc) :
  0 ≤ b →
  Forall (Forall (λ x, 0 ≤ x ≤ b)) rows →
  np_mean_axis0 rows = Ok m → Forall (λ x, 0 ≤ x ≤ b) m.
Proof.
  intros Hb Hrows Hm. destruct rows as [|r rows]; [done|].
  unfold np_mean_axis0 in Hm. case_bool_decide; [|done]. injection Hm as <-.
  apply Forall_fmap, Forall_forall. intros j _.
  by apply (column_mean_bounds (r :: rows) j b).
Qed.

(** ** Grouping followed by reduction *)

Lemma plot_topics_over_time_group_reduce (D : list document) :
  plot_topics_over_time D = group_reduce year_contribution np_mean_axis0 D.
Proof.
  unfold plot_topics_over_time, group_reduce. rewrite get_year_to_topics_grouped.
  by destruct (mapM year_contribution D).
Qed.

Lemma plot_topics_in_journals_group_reduce (D : list document) :
  plot_topics_in_journals D = group_reduce journal_contribution np_mean_axis0 D.
Proof.
  unfold plot_topics_in_journals, group_reduce. rewrite journal_to_topics_of_grouped.
  by destruct (mapM journal_contribution D).
Qed.

Lemma dominant_id_to_cum_topics_of_group_reduce (D : list document) :
  dominant_id_to_cum_topics_of D = group_reduce dominant_contribution mean_percent D.
Proof.
  unfold dominant_id_to_cum_topics_of, group_reduce.
  rewrite dominant_id_to_topics_of_grouped.
  by destruct (mapM dominant_contribution D).
Qed.

Lemma Forall2_elem_of_r {A B} (R : A → B → Prop) (l : list A) (k : list B) (y : B) :
  Forall2 R l k → y ∈ k → ∃ x, x ∈ l ∧ R x y.
Proof.
  induction 1 as [|x y' l k Hxy _ IH]; intros Hin.
  - by apply elem_of_nil in Hin.
  - apply elem_of_cons in Hin as [->|Hin].
    + exists x. split; [left | done].
    + destruct (IH Hin) as (x' & Hx' & HR). exists x'. split; [by right | done].
Qed.

Section group_reduce.
Context `{Countable K}.
Variable contribution : document → result (option (K * list Qc)).
Variable f : list (list Qc) → result (list Qc).

Lemma group_reduce_Permutation (D D' : list document) (c : gmap K (list Qc)) :
  (∀ rows rows', rows ≡ₚ rows' → f rows = f rows') →
  D ≡ₚ D' →
  group_reduce contribution f D = Ok c → group_reduce contribution f D' = Ok c.
Proof.
  intros Hf HD (rs & Hrs & Hc)%bind_Ok.
  destruct (mapM_Permutation _ _ _ _ HD Hrs) as (rs' & Hrs' & Hp).
  unfold group_reduce. rewrite Hrs', Ok_bind.
  apply reduce_buckets_lookup. intros k.
  pose proof (proj1 (reduce_buckets_lookup _ _ _) Hc k) as Hk.
  rewrite lookup_grouped in Hk |- *.
  assert (bucket k (omap id rs) ≡ₚ bucket k (omap id rs')) as Hb.
  { apply bucket_Permutation. by rewrite Hp. }
  destruct (decide (bucket k (omap id rs) = [])) as [Hnil|Hne].
  - rewrite Hnil in Hb. apply Permutation_nil in Hb. by rewrite decide_True.
  - rewrite decide_False.
    + inversion Hk as [v y Hy|]; simplify_eq. constructor.
      by rewrite <- (Hf _ _ Hb).
    + intros Hnil. rewrite Hnil in Hb. by apply Permutation_nil_r in Hb.
Qed.

(** Every vector of a bucket was contributed by a document of the pass. *)
Lemma group_reduce_bounds (P Q : list Qc → Prop) (D : list document) (c : gmap K (list Qc)) :
  (∀ d k vec, d ∈ D → contribution d = Ok (Some (k, vec)) → P vec) →
  (∀ rows m, Forall P rows → f rows = Ok m → Q m) →
  group_reduce contribution f D = Ok c →
  ∀ k v, c !! k = Some v → Q v.
Proof.
  intros Hg Hf (rs & Hrs%mapM_Ok & Hc)%bind_Ok k v Hv.
  pose proof (proj1 (reduce_buckets_lookup _ _ _) Hc k) as Hk.
  rewrite Hv, lookup_grouped in Hk. case_decide; inversion Hk as [rows y Hy|]; simplify_eq.
  apply (Hf (bucket k (omap id rs)) v); [|done].
  apply Forall_forall. intros vec Hvec%elem_of_bucket.
  apply list_elem_of_omap in Hvec as (r & Hr & Hsome). simpl in Hsome. subst r.
  destruct (Forall2_elem_of_r _ _ _ _ Hrs Hr) as (d & Hd & Hgd).
  by apply (Hg d k vec).
Qed.
End group_reduce.

(** ** What a document contributes *)

Lemma topics_iteritems_Ok (d : document) (items : topic_items) :
  topics_iteritems d = Ok items ↔ topics d = Present items.
Proof. unfold topics_iteritems. destruct (topics d); split; congruence. Qed.

Lemma year_contribution_Ok (d : document) (k : Z) (vec : list Qc) :
  year_contribution d = Ok (Some (k, vec)) →
  ∃ items, topics d = Present items ∧ sorted_topic_values items = Ok vec ∧ k = year d.
Proof.
  intros (items & Hi%topics_iteritems_Ok & (v & Hv & [= <- <-])%bind_Ok)%bind_Ok.
  by exists items.
Qed.

Lemma journal_contribution_Ok (d : document) (k : string) (vec : list Qc) :
  journal_contribution d = Ok (Some (k, vec)) →
  ∃ items, topics d = Present items ∧ sorted_topic_values items = Ok vec ∧ k = journal d.
Proof.
  unfold journal_contribution. destruct (topics d) as [| |items]; [done..|].
  intros (v & Hv & [= <- <-])%bind_Ok. by exists items.
Qed.

Lemma dominant_contribution_Ok (d : document) (k : nat) (vec : list Qc) :
  dominant_contribution d = Ok (Some (k, vec)) →
  ∃ items, topics d = Present items ∧ sorted_topic_values items = Ok vec
           ∧ max_topic_id_of vec = Ok k.
Proof.
  intros (items & Hi%topics_iteritems_Ok & (v & Hv & (i & Hi' & [= <- <-])%bind_Ok)
    %bind_Ok)%bind_Ok.
  by exists items.
Qed.

Lemma sorted_topic_values_in_unit (D : list document) (d : document)
    (items : topic_items) (vec : list Qc) :
  probabilities_in_unit D → d ∈ D → topics d = Present items →
  sorted_topic_values items = Ok vec → Forall (λ x, 0 ≤ x ≤ 1) vec.
Proof.
  intros HD Hd Hitems Hvec%sorted_topic_values_Permutation.
  rewrite Hvec. apply Forall_fmap, Forall_forall. intros kv Hkv.
  by apply (HD d items kv).
Qed.

Lemma mean_percent_bounds (rows : list (list Qc)) (m : list Qc) :
  Forall (Forall (λ x, 0 ≤ x ≤ 1)) rows →
  mean_percent rows = Ok m → Forall (λ x, 0 ≤ x ≤ Qc_of_Z 100) m.
Proof.
  intros Hrows (m1 & Hm1 & [= <-])%bind_Ok.
  apply Forall_fmap. eapply Forall_impl.
  - by apply (np_mean_axis0_bounds rows m1 1).
  - intros x [Hx0 Hx1]. simpl.
    assert (0 ≤ Qc_of_Z 100) as H100.
    { rewrite <- Z2Qc_inj_0. by apply (proj1 (Z2Qc_inj_le 0 100)). }
    split.
    + by apply Qcmult_nonneg_nonneg.
    + rewrite <- (Qcmult_1_l (Qc_of_Z 100)) at 2. by apply Qcmult_le_mono_nonneg_r.
Qed.

(** Claim C6, as amended. When all stored probabilities lie in [[0,1]],
    every component of a per-year and of a per-journal cumulative
    distribution lies in [[0,1]]; the per-dominant-topic cumulative
    distribution is scaled to percentages, and every component of it
    lies in [[0,100]]. *)
Theorem cumulative_components_bounds (D : list document) :
  probabilities_in_unit D →
  (∀ c k v x, plot_topics_over_time D = Ok c → c !! k = Some v → x ∈ v → 0 ≤ x ≤ 1) ∧
  (∀ c k v x, plot_topics_in_journals D = Ok c → c !! k = Some v → x ∈ v → 0 ≤ x ≤ 1) ∧
  (∀ c k v x, dominant_id_to_cum_topics_of D = Ok c → c !! k = Some v → x ∈ v →
     0 ≤ x ≤ Qc_of_Z 100).
Proof.
  intros HD. split; [|split]; intros c k v x Hc Hv Hx.
  - rewrite plot_topics_over_time_group_reduce in Hc.
    eapply (Forall_forall (λ x, 0 ≤ x ≤ 1)); [|exact Hx].
    eapply (group_reduce_bounds _ _ (Forall (λ x, 0 ≤ x ≤ 1))); [| |exact Hc|exact Hv].
    + intros d k' vec Hd (items & Hi & Hvec & _)%year_contribution_Ok.
      by apply (sorted_topic_values_in_unit D d items).
    + intros rows m. by apply np_mean_axis0_bounds.
  - rewrite plot_topics_in_journals_group_reduce in Hc.
    eapply (Forall_forall (λ x, 0 ≤ x ≤ 1)); [|exact Hx].
    eapply (group_reduce_bounds _ _ (Forall (λ x, 0 ≤ x ≤ 1))); [| |exact Hc|exact Hv].
    + intros d k' vec Hd (items & Hi & Hvec & _)%journal_contribution_Ok.
      by apply (sorted_topic_values_in_unit D d items).
    + intros rows m. by apply np_mean_axis0_bounds.
  - rewrite dominant_id_to_cum_topics_of_group_reduce in Hc.
    eapply (Forall_forall (λ x, 0 ≤ x ≤ Qc_of_Z 100)); [|exact Hx].
    eapply (group_reduce_bounds _ _ (Forall (λ x, 0 ≤ x ≤ 1))); [| |exact Hc|exact Hv].
    + intros d k' vec Hd (items & Hi & Hvec & _)%dominant_contribution_Ok.
      by apply (sorted_topic_values_in_unit D d items).
    + intros rows m. by apply mean_percent_bounds.
Qed.

(** Claim C6 as stated fails on the per-dominant-topic path: the only
    stored probability is 1, and the component produced is 100. *)
Lemma dominant_cumulative_component_exceeds_one :
  probabilities_in_unit [doc_one] ∧
  dominant_id_to_cum_topics_of [doc_one] = Ok {[ 0%nat := [Qc_of_Z 100] ]} ∧
  ¬ (Qc_of_Z 100 ≤ 1).
Proof.
  split; [|split].
  - intros d items kv ->%list_elem_of_singleton [= <-] ->%list_elem_of_singleton.
    split; by_evaluation.
  - by_evaluation.
  - by_evaluation.
Qed.

Lemma in_unit_check_sound (D : list document) :
  in_unit_check D = true → probabilities_in_unit D.
Proof.
  intros Hcheck d items kv Hd Hitems Hkv.
  unfold in_unit_check in Hcheck. rewrite forallb_forall in Hcheck.
  specialize (Hcheck d (proj1 (list_elem_of_In _ _) Hd)). rewrite Hitems in Hcheck.
  rewrite forallb_forall in Hcheck.
  specialize (Hcheck kv (proj1 (list_elem_of_In _ _) Hkv)).
  by apply bool_decide_eq_true in Hcheck.
Qed.

Lemma cumulative_components_bounds_witness :
  plot_topics_over_time [doc_a; doc_b; doc_c]
    = Ok {[ 2000%Z := [frac 3 8; frac 5 8]; 2001%Z := [frac 1 5; frac 4 5] ]} ∧
  0 ≤ frac 5 8 ≤ 1.
Proof.
  split; [by_evaluation|].
  destruct (cumulative_components_bounds [doc_a; doc_b; doc_c]) as [Hyear _].
  { apply in_unit_check_sound. vm_compute. reflexivity. }
  apply (Hyear {[ 2000%Z := [frac 3 8; frac 5 8]; 2001%Z := [frac 1 5; frac 4 5] ]}
           2000%Z [frac 3 8; frac 5 8]).
  - by_evaluation.
  - by_evaluation.
  - right. left.
Defined.

(** Claim C9. Permuting the documents before grouping and reducing
    leaves every cumulative distribution unchanged: a pass over the
    permuted list yields a result exactly when the pass over the
    original list does, and then the same mapping from group key to
    mean vector, on the per-year, the per-journal and the
    per-dominant-topic path alike. *)
Theorem cumulative_distributions_Permutation (D D' : list document) :
  D ≡ₚ D' →
  (∀ c, plot_topics_over_time D = Ok c ↔ plot_topics_over_time D' = Ok c) ∧
  (∀ c, plot_topics_in_journals D = Ok c ↔ plot_topics_in_journals D' = Ok c) ∧
  (∀ c, dominant_id_to_cum_topics_of D = Ok c ↔ dominant_id_to_cum_topics_of D' = Ok c).
Proof.
  intros HD. assert (D' ≡ₚ D) as HD' by done.
  split; [|split]; intros c.
  - rewrite !plot_topics_over_time_group_reduce.
    split; apply group_reduce_Permutation; auto using np_mean_axis0_Permutation.
  - rewrite !plot_topics_in_journals_group_reduce.
    split; apply group_reduce_Permutation; auto using np_mean_axis0_Permutation.
  - rewrite !dominant_id_to_cum_topics_of_group_reduce.
    split; apply group_reduce_Permutation; auto using mean_percent_Permutation.
Qed.

Lemma cumulative_distributions_Permutation_witness :
  plot_topics_over_time [doc_c; doc_b; doc_a]
    = Ok {[ 2000%Z := [frac 3 8; frac 5 8]; 2001%Z := [frac 1 5; frac 4 5] ]}.
Proof.
  destruct (cumulative_distributions_Permutation
              [doc_a; doc_b; doc_c] [doc_c; doc_b; doc_a]) as [Hyear _].
  { symmetry. apply (reverse_Permutation [doc_a; doc_b; doc_c]). }
  apply Hyear. by_evaluation.
Defined.

(** ** Failures of a pass *)

Lemma mapM_Raise {A B} (f : A → result B) (l : list A) (e : exn) :
  mapM f l = Raise e → ∃ x, x ∈ l ∧ f x = Raise e.
Proof.
  induction l as [|x l IH]; [done|]. rewrite mapM_cons.
  destruct (f x) as [y|e'] eqn:Hx; rewrite ?Ok_bind, ?Raise_bind.
  - destruct (mapM f l) as [k|e'']; [done|]. rewrite Raise_bind. intros [= ->].
    destruct IH as (x' & Hx' & Hf); [done|]. exists x'. split; [by right | done].
  - intros [= ->]. exists x. split; [left | done].
Qed.

Lemma sorted_topic_values_Raise (items : topic_items) (e : exn) :
  sorted_topic_values items = Raise e →
  ∃ key, key ∈ items.*1 ∧ parse_int key = None ∧ e = ValueError_int key.
Proof.
  unfold sorted_topic_values, sorted_by_int_key.
  destruct (int_keyed items) as [keyed|e'] eqn:Hk; [done|].
  rewrite !Raise_bind. intros [= ->].
  apply mapM_Raise in Hk as ([key p] & Hin & Hraise). simpl in Hraise.
  unfold py_int in Hraise. destruct (parse_int key) eqn:Hkey; [done|].
  rewrite Raise_bind in Hraise. injection Hraise as <-.
  exists key. split; [|done]. apply list_elem_of_fmap. by exists (key, p).
Qed.

Lemma year_contribution_succeeds (d : document) :
  succeeds (year_contribution d) ↔
  ∃ items, topics d = Present items ∧ Forall (λ kv, is_Some (parse_int kv.1)) items.
Proof.
  unfold year_contribution, topics_iteritems. split.
  - destruct (topics d) as [| |items]; [by intros [? [=]]..|]. rewrite Ok_bind.
    intros Hs. exists items. split; [done|]. apply sorted_topic_values_succeeds.
    destruct (sorted_topic_values items) as [v|e]; [by exists v|].
    by destruct Hs as [? [=]].
  - intros (items & -> & [v Hv]%sorted_topic_values_succeeds).
    rewrite Ok_bind, Hv. by eexists.
Qed.

Lemma get_year_to_topics_succeeds (D : list document) :
  succeeds (get_year_to_topics D) ↔ Forall (λ d, succeeds (year_contribution d)) D.
Proof.
  rewrite get_year_to_topics_grouped, <- mapM_succeeds.
  destruct (mapM year_contribution D) as [rs|e].
  - split; intros _; by eexists.
  - split; intros [? [=]].
Qed.

(** Claim C4, as amended. The aggregation performs no range check on
    topic ids. A pass over documents succeeds exactly when every
    document carries a topic mapping all of whose keys are integer
    literals, whatever their range; the topic vector then holds every
    stored probability (none is dropped or altered) in ascending
    order of the ids, equal ids in the order of the mapping, so that
    with distinct ids the probability of an id, in range or not, takes
    the position given by its rank among the stored ids. The only
    failure a key can cause is the [ValueError] of [int] on a key that
    is not an integer literal. *)
Theorem topic_ids_not_range_checked (D : list document) (items : topic_items) :
  (succeeds (get_year_to_topics D) ↔
     Forall (λ d, ∃ its, topics d = Present its
                         ∧ Forall (λ kv, is_Some (parse_int kv.1)) its) D) ∧
  (succeeds (sorted_topic_values items) ↔
     Forall (λ kv, is_Some (parse_int kv.1)) items) ∧
  (∀ v, sorted_topic_values items = Ok v → v ≡ₚ items.*2) ∧
  (∀ v, sorted_topic_values items = Ok v →
     ∃ sorted ids,
       v = sorted.*2 ∧ sorted ≡ₚ items ∧ has_ids sorted ids ∧ StronglySorted Z.le ids ∧
       ∀ z, filter (λ kv, parse_int kv.1 = Some z) sorted
            = filter (λ kv, parse_int kv.1 = Some z) items) ∧
  (∀ ids v (key : string) (p : Qc) (z : Z),
     has_ids items ids → NoDup ids → sorted_topic_values items = Ok v →
     (key, p) ∈ items → parse_int key = Some z →
     v !! length (filter (λ z', (z' < z)%Z) ids) = Some p) ∧
  (∀ e, sorted_topic_values items = Raise e →
     ∃ key, key ∈ items.*1 ∧ parse_int key = None ∧ e = ValueError_int key).
Proof.
  split; [|split; [|split; [|split; [|split]]]].
  - rewrite get_year_to_topics_succeeds. apply Forall_proper; [|done].
    intros d. apply year_contribution_succeeds.
  - apply sorted_topic_values_succeeds.
  - apply sorted_topic_values_Permutation.
  - apply sorted_topic_values_sorted.
  - intros ids v key p z. apply sorted_topic_values_rank.
  - apply sorted_topic_values_Raise.
Qed.

Lemma topic_ids_not_range_checked_witness :
  succeeds (get_year_to_topics [doc_5]) ∧
  (∀ v, sorted_topic_values [("0", frac 3 10); ("5", frac 7 10)] = Ok v →
        v ≡ₚ [frac 3 10; frac 7 10] ∧ v !! 1%nat = Some (frac 7 10)).
Proof.
  destruct (topic_ids_not_range_checked [doc_5] [("0", frac 3 10); ("5", frac 7 10)])
    as (Hpass & _ & Hperm & _ & Hrank & _).
  split.
  - apply Hpass. repeat constructor.
    exists [("0", frac 3 10); ("5", frac 7 10)]. split; [done|].
    repeat constructor; by eexists.
  - intros v Hv. split; [by apply Hperm|].
    apply (Hrank [0; 5]%Z v "5" (frac 7 10) 5%Z).
    + repeat constructor.
    + apply (bool_decide_unpack _). vm_compute. exact I.
    + exact Hv.
    + right. left.
    + reflexivity.
Defined.

(** Claim C4 as stated fails: with [K = 3] the key ["5"] denotes an
    id outside [[0,3)], yet the pass returns normally and the
    probability of id 5 sits at index 1 of the vector. *)
Lemma out_of_range_id_accepted :
  parse_int "5" = Some 5%Z ∧ ¬ (0 ≤ 5 < 3)%Z ∧
  get_year_to_topics [doc_5] = Ok {[ 2000%Z := [[frac 3 10; frac 7 10]] ]}.
Proof. split; [done|]. split; [lia | by_evaluation]. Qed.

(** ** Documents without a topic mapping *)

(** The per-journal pass leaves out a document whose topic mapping is
    missing or null and carries on. *)
Lemma journal_pass_skips_missing_topics (D1 D2 : list document) (d : document) :
  is_not_None (topics d) = false →
  journal_to_topics_of (D1 ++ d :: D2) = journal_to_topics_of (D1 ++ D2).
Proof.
  intros Hd. unfold journal_to_topics_of. rewrite !for_each_app.
  destruct (for_each _ ∅ D1) as [m|e]; [|done]. rewrite !Ok_bind, for_each_cons.
  by destruct (topics d).
Qed.

(** The per-year pass and the per-dominant-topic pass read
    [d['topics']] without a guard: a record without the mapping makes
    them raise, wherever it stands in the collection. *)
Lemma unguarded_passes_raise (D1 D2 : list document) (d : document) :
  topics d = Absent →
  raises (get_year_to_topics (D1 ++ d :: D2)) ∧
  raises (dominant_id_to_topics_of (D1 ++ d :: D2)).
Proof.
  intros Hd.
  assert (topics_iteritems d = Raise (KeyError "topics")) as Hraise.
  { unfold topics_iteritems. by rewrite Hd. }
  split.
  - apply (for_each_raises _ _ _ d); [apply elem_of_app; right; left|].
    intros m. exists (KeyError "topics"). cbn beta zeta. by rewrite Hraise.
  - apply (for_each_raises _ _ _ d); [apply elem_of_app; right; left|].
    intros m. exists (KeyError "topics"). cbn beta zeta. by rewrite Hraise.
Qed.

(** Claim C3, evaluated on a collection whose second record has no
    topic mapping: the per-journal pass leaves the record out and
    keeps the other two, while the per-year pass and the
    per-dominant-topic pass raise [KeyError]. *)
Theorem missing_topics_per_path :
  journal_to_topics_of [doc_a; doc_without_topics; doc_b]
    = Ok {[ "Fish and Fisheries" := [[frac 1 2; frac 1 2]; [frac 1 4; frac 3 4]] ]} ∧
  get_year_to_topics [doc_a; doc_without_topics; doc_b] = Raise (KeyError "topics") ∧
  dominant_id_to_topics_of [doc_a; doc_without_topics; doc_b] = Raise (KeyError "topics").
Proof. split; [by_evaluation|]. split; by_evaluation. Qed.

(** ** The builtins [max] and [index] *)

Lemma max_from_first {A} (key : A → Qc) (best : A) (l : list A) :
  ∃ l1 l2, best :: l = l1 ++ max_from key best l :: l2 ∧
    Forall (λ x, key x < key (max_from key best l)) l1 ∧
    Forall (λ x, key x ≤ key (max_from key best l)) l2.
Proof.
  revert best. induction l as [|x l IH]; intros best.
  - exists [], []. simpl. by repeat constructor.
  - cbn [max_from]. case_bool_decide as Hlt.
    + destruct (IH x) as (l1 & l2 & Heq & H1 & H2).
      exists (best :: l1), l2. split; [by rewrite Heq|]. split; [|done].
      constructor; [|done]. eapply Qclt_le_trans; [exact Hlt|].
      assert (x ∈ l1 ++ max_from key x l :: l2) as Hx by (rewrite <- Heq; left).
      apply elem_of_app in Hx as [Hx|Hx].
      * apply Qclt_le_weak. by eapply (proj1 (Forall_forall _ _) H1).
      * apply elem_of_cons in Hx as [<-|Hx]; [apply Qcle_refl|].
        by eapply (proj1 (Forall_forall _ _) H2).
    + apply Qcnot_lt_le in Hlt.
      destruct (IH best) as (l1 & l2 & Heq & H1 & H2).
      destruct l1 as [|b l1]; simpl in Heq; injection Heq as Hb Hl.
      * rewrite <- Hb in H2 |- *. exists [], (x :: l).
        split; [done|]. split; [constructor|].
        constructor; [done|]. by rewrite Hl.
      * subst b. exists (best :: x :: l1), l2. split; [simpl; by rewrite <- Hl|].
        split; [|done]. apply Forall_cons in H1 as [Hbest H1].
        constructor; [done|]. constructor; [|done].
        by eapply Qcle_lt_trans.
Qed.

Lemma py_max_Ok {A} (key : A → Qc) (l : list A) (r : A) :
  py_max key l = Ok r →
  ∃ l1 l2, l = l1 ++ r :: l2 ∧
    Forall (λ x, key x < key r) l1 ∧ Forall (λ x, key x ≤ key r) l2.
Proof. destruct l as [|x l]; [done|]. intros [= <-]. apply max_from_first. Qed.

Lemma py_max_succeeds {A} (key : A → Qc) (l : list A) : l ≠ [] → succeeds (py_max key l).
Proof. destruct l; [done|]. intros _. by eexists. Qed.

Lemma py_max_upper_bound {A} (key : A → Qc) (l : list A) (r x : A) :
  py_max key l = Ok r → x ∈ l → key x ≤ key r.
Proof.
  intros (l1 & l2 & -> & H1 & H2)%py_max_Ok [Hx|[->|Hx]%elem_of_cons]%elem_of_app.
  - apply Qclt_le_weak. by eapply (proj1 (Forall_forall _ _) H1).
  - apply Qcle_refl.
  - by eapply (proj1 (Forall_forall _ _) H2).
Qed.

Lemma py_max_elem_of {A} (key : A → Qc) (l : list A) (r : A) :
  py_max key l = Ok r → r ∈ l.
Proof.
  intros (l1 & l2 & -> & _)%py_max_Ok. apply elem_of_app. right. left.
Qed.

Lemma py_index_Ok (v : Qc) (l : list Qc) (i : nat) :
  py_index v l = Ok i ↔ l !! i = Some v ∧ ∀ j, (j < i)%nat → l !! j ≠ Some v.
Proof.
  revert i. induction l as [|x l IH]; intros i; cbn [py_index].
  - split; [done | by intros [? _]].
  - case_bool_decide as Hx.
    + subst x. split.
      * intros [= <-]. split; [done | intros j; lia].
      * intros [Hi Hfirst]. destruct i as [|i]; [done|].
        by destruct (Hfirst 0%nat); [lia|].
    + rewrite fmap_Ok. split.
      * intros (i' & [Hi' Hfirst]%IH & ->). split; [done|].
        intros [|j] Hj; simpl; [congruence | apply Hfirst; lia].
      * intros [Hi Hfirst]. destruct i as [|i]; [simpl in Hi; congruence|].
        exists i. split; [|done]. apply IH. split; [done|].
        intros j Hj. apply (Hfirst (S j)). lia.
Qed.

Lemma py_index_succeeds (v : Qc) (l : list Qc) : v ∈ l → succeeds (py_index v l).
Proof.
  induction l as [|x l IH]; intros Hin; [by apply elem_of_nil in Hin|].
  cbn [py_index]. case_bool_decide as Hx; [by eexists|].
  apply elem_of_cons in Hin as [->|Hin]; [done|].
  destruct (IH Hin) as [i ->]. by eexists.
Qed.

Lemma StronglySorted_lookup_lt {A} (R : relation A) (l : list A) (i j : nat) (a b : A) :
  StronglySorted R l → l !! i = Some a → l !! j = Some b → (i < j)%nat → R a b.
Proof.
  intros Hl. revert i j. induction Hl as [|x l _ IH Hx]; intros i j Hi Hj Hij; [done|].
  destruct j as [|j]; [lia|]. destruct i as [|i]; simpl in *.
  - injection Hi as <-. eapply (proj1 (Forall_forall _ _) Hx).
    by eapply list_elem_of_lookup_2.
  - apply (IH i j); [done | done | lia].
Qed.

(** ** Dominant topics *)

Lemma get_document_title_per_topic_loop (D : list document) (titles : list title_row) :
  for_each (λ titles d,
      dominant ← dominant_topic d;
      mret (titles ++ [TitleRow (year d) (title d) (journal d) dominant.1 dominant.2]))
    titles D
  = mapM title_row_of D ≫= λ rows, mret (titles ++ rows).
Proof.
  revert titles. induction D as [|d D IH]; intros titles.
  - simpl. by rewrite app_nil_r.
  - rewrite for_each_cons, mapM_cons.
    change (title_row_of d) with (dominant_topic d ≫= λ dominant,
      mret (TitleRow (year d) (title d) (journal d) dominant.1 dominant.2)).
    destruct (dominant_topic d) as [dominant|e]; [|done].
    rewrite !Ok_bind, IH.
    destruct (mapM title_row_of D) as [rows|e]; [|done].
    rewrite !Ok_bind, ?mret_bind. by rewrite <- (assoc_L (++)).
Qed.

Lemma get_document_title_per_topic_mapM (D : list document) :
  get_document_title_per_topic D = mapM title_row_of D.
Proof.
  unfold get_document_title_per_topic. rewrite get_document_title_per_topic_loop.
  by destruct (mapM title_row_of D).
Qed.

Lemma dominant_topic_Present (d : document) (items : topic_items) :
  topics d = Present items → dominant_topic d = py_max snd items.
Proof. intros Hd. unfold dominant_topic, topics_iteritems. by rewrite Hd. Qed.

(** The co-occurrence selection on a sorted mapping: the position of
    the first maximal value. *)
Lemma max_topic_id_of_Ok (vec : list Qc) (i : nat) :
  max_topic_id_of vec = Ok i ↔
  ∃ m, vec !! i = Some m ∧ (∀ x, x ∈ vec → x ≤ m) ∧ ∀ j, (j < i)%nat → vec !! j ≠ Some m.
Proof.
  unfold max_topic_id_of. rewrite bind_Ok. split.
  - intros (m & Hm & [Hi Hfirst]%py_index_Ok). exists m. split; [done|]. split; [|done].
    intros x Hx. by apply (py_max_upper_bound id vec m x).
  - intros (m & Hi & Hmax & Hfirst).
    destruct (py_max_succeeds id vec) as [m' Hm'].
    { intros ->. by rewrite lookup_nil in Hi. }
    assert (m' = m) as ->.
    { apply Qcle_antisym.
      - apply Hmax. by apply (py_max_elem_of id).
      - apply (py_max_upper_bound id vec m' m Hm'). by eapply list_elem_of_lookup_2. }
    exists m. split; [done|]. by apply py_index_Ok.
Qed.

Lemma max_topic_id_of_succeeds (vec : list Qc) : vec ≠ [] → succeeds (max_topic_id_of vec).
Proof.
  intros Hne. destruct (py_max_succeeds id vec Hne) as [m Hm].
  destruct (py_index_succeeds m vec) as [i Hi]; [by apply (py_max_elem_of id)|].
  exists i. unfold max_topic_id_of. by rewrite Hm.
Qed.

(** Claim C2, as amended. On a non-empty mapping both selections
    return an entry of maximal probability. The titles table takes
    the first such entry in the iteration order of the mapping; the
    co-occurrence view takes the position, in ascending id order, of
    the tied entry with the smallest id. *)
Theorem dominant_topic_tie_break (d : document) (items : topic_items) :
  topics d = Present items → items ≠ [] →
  (∃ key p l1 l2, dominant_topic d = Ok (key, p) ∧ items = l1 ++ (key, p) :: l2 ∧
     Forall (λ kv, kv.2 < p) l1 ∧ Forall (λ kv, kv.2 ≤ p) l2) ∧
  (∀ ids, has_ids items ids →
     ∃ sorted i key p z,
       sorted_by_int_key items = Ok sorted ∧
       dominant_contribution d = Ok (Some (i, sorted.*2)) ∧
       sorted !! i = Some (key, p) ∧ parse_int key = Some z ∧
       Forall (λ kv, kv.2 ≤ p) items ∧
       ∀ key' z', (key', p) ∈ items → parse_int key' = Some z' → (z ≤ z')%Z).
Proof.
  intros Hd Hne. split.
  - rewrite (dominant_topic_Present d items Hd).
    destruct (py_max_succeeds snd items Hne) as [[key p] Hmax].
    destruct (py_max_Ok _ _ _ Hmax) as (l1 & l2 & Heq & H1 & H2).
    by exists key, p, l1, l2.
  - intros ids Hids. set (keyed := sort_by_key (zip ids items)).
    assert (keyed.*2 ≡ₚ items) as Hperm.
    { unfold keyed. rewrite sort_by_key_Permutation, snd_zip; [done|].
      by rewrite (Forall2_length _ _ _ Hids). }
    assert (keyed.*2.*2 ≠ []) as Hvec.
    { intros Hnil. do 2 apply fmap_nil_inv in Hnil. rewrite Hnil in Hperm.
      by apply Permutation_nil in Hperm. }
    destruct (max_topic_id_of_succeeds _ Hvec) as [i Hi].
    pose proof (proj1 (max_topic_id_of_Ok _ _) Hi) as (m & Him & Hmax & Hfirst).
    rewrite !list_lookup_fmap in Him.
    destruct (keyed !! i) as [[z [key p]]|] eqn:Hki; [|done].
    injection Him as <-. simpl in *.
    assert (Forall (λ kx, parse_int kx.2.1 = Some kx.1) keyed) as Hparse.
    { unfold keyed. rewrite sort_by_key_Permutation. by apply has_ids_zip. }
    exists keyed.*2, i, key, p, z. split; [|split; [|split; [|split; [|split]]]].
    + by apply sorted_by_int_key_has_ids.
    + unfold dominant_contribution, topics_iteritems, sorted_topic_values.
      rewrite Hd, Ok_bind, (sorted_by_int_key_has_ids _ ids Hids).
      fold keyed. rewrite ?Ok_bind, ?mret_bind, Hi. done.
    + by rewrite list_lookup_fmap, Hki.
    + eapply (proj1 (Forall_forall _ _) Hparse (z, (key, p))).
      by eapply list_elem_of_lookup_2.
    + apply Forall_forall. intros kv Hkv. apply Hmax.
      rewrite Hperm. apply list_elem_of_fmap. by exists kv.
    + intros key' z' Hin Hkey'.
      destruct (has_ids_elem_of _ _ _ Hids Hin) as (z'' & Hz'' & Hzin). simpl in Hz''.
      assert (z'' = z') as -> by congruence.
      rewrite <- (sort_by_key_Permutation (zip ids items)) in Hzin. fold keyed in Hzin.
      apply list_elem_of_lookup in Hzin as [j Hj].
      destruct (decide (j < i)%nat) as [Hlt|Hge].
      * destruct (Hfirst j Hlt). by rewrite !list_lookup_fmap, Hj.
      * destruct (decide (j = i)) as [->|Hne'].
        { rewrite Hki in Hj. injection Hj as ->. lia. }
        apply (StronglySorted_lookup_lt key_le keyed i j (z, (key, p)) (z', (key', p)));
          [apply sort_by_key_sorted | done | done | lia].
Qed.

Lemma dominant_topic_tie_break_witness :
  ∃ key p l1 l2, dominant_topic doc_b = Ok (key, p) ∧
    [("1", frac 3 4); ("0", frac 1 4)] = l1 ++ (key, p) :: l2 ∧
    Forall (λ kv : string * Qc, kv.2 < p) l1 ∧ Forall (λ kv : string * Qc, kv.2 ≤ p) l2.
Proof.
  destruct (dominant_topic_tie_break doc_b [("1", frac 3 4); ("0", frac 1 4)])
    as [Htitles _]; [reflexivity | discriminate | exact Htitles].
Defined.

(** Claim C2 as stated fails on the titles table: ids 0 and 1 tie at
    probability 1/2, the mapping yields key ["1"] first, and the
    selection returns id 1, not the smaller id 0. The co-occurrence
    view, on the same record, selects position 0. *)
Lemma dominant_topic_not_lowest_id :
  topics doc_a = Present [("1", frac 1 2); ("0", frac 1 2)] ∧
  dominant_topic doc_a = Ok ("1", frac 1 2) ∧
  parse_int "0" = Some 0%Z ∧ parse_int "1" = Some 1%Z ∧
  dominant_contribution doc_a = Ok (Some (0%nat, [frac 1 2; frac 1 2])).
Proof. split; [done|]. split; [by_evaluation|]. split; [done|]. split; [done | by_evaluation]. Qed.

(** Claim C5. Dominant-topic selection on a record whose topic mapping
    has no entries raises ([ValueError] of [max] on an empty
    sequence), in the titles table and in the co-occurrence view; the
    failure is not caught, so a pass over a collection holding such a
    record raises, and it raises this very error when the records
    before it went through. *)
Theorem dominant_topic_of_empty_distribution (d : document) (D1 D2 : list document) :
  topics d = Present [] →
  dominant_topic d = Raise ValueError_max_empty ∧
  dominant_contribution d = Raise ValueError_max_empty ∧
  raises (get_document_title_per_topic (D1 ++ d :: D2)) ∧
  raises (dominant_id_to_topics_of (D1 ++ d :: D2)) ∧
  (succeeds (get_document_title_per_topic D1) →
     get_document_title_per_topic (D1 ++ d :: D2) = Raise ValueError_max_empty) ∧
  (succeeds (dominant_id_to_topics_of D1) →
     dominant_id_to_topics_of (D1 ++ d :: D2) = Raise ValueError_max_empty).
Proof.
  intros Hd.
  assert (dominant_topic d = Raise ValueError_max_empty) as Htitle.
  { by rewrite (dominant_topic_Present d [] Hd). }
  assert (topics_iteritems d = Ok []) as Hitems by (by apply topics_iteritems_Ok).
  assert (dominant_contribution d = Raise ValueError_max_empty) as Hco.
  { unfold dominant_contribution. by rewrite Hitems. }
  split; [done|]. split; [done|]. split; [|split; [|split]].
  - apply (for_each_raises _ _ _ d); [apply elem_of_app; right; left|].
    intros titles. exists ValueError_max_empty. by rewrite Htitle.
  - apply (for_each_raises _ _ _ d); [apply elem_of_app; right; left|].
    intros m. exists ValueError_max_empty. by rewrite Hitems.
  - intros [titles Htitles]. unfold get_document_title_per_topic in *.
    rewrite for_each_app, Htitles, Ok_bind, for_each_cons. by rewrite Htitle.
  - intros [m Hm]. unfold dominant_id_to_topics_of in *.
    rewrite for_each_app, Hm, Ok_bind, for_each_cons. by rewrite Hitems.
Qed.

Lemma dominant_topic_of_empty_distribution_witness :
  get_document_title_per_topic ([doc_a] ++ doc_empty :: [doc_b]) = Raise ValueError_max_empty.
Proof.
  destruct (dominant_topic_of_empty_distribution doc_empty [doc_a] [doc_b])
    as (_ & _ & _ & _ & Hpass & _); [reflexivity|].
  apply Hpass. exists [TitleRow 2000 "A" "Fish and Fisheries" "1" (frac 1 2)]. by_evaluation.
Defined.

(** Claim C10. Every row of the titles table is
    [[year, title, journal, dominant_topic_id, dominant_topic_percentage]]
    of its record, in the order of the records. The id it carries is a
    key of the persisted mapping of that record, as stored: a string,
    which the pass neither reads as an integer nor rewrites, so that
    the keys need not be integer literals. The key is paired with the
    probability stored under it, which no probability of the record
    exceeds, and it is the first such key in the iteration order of
    the mapping. *)
Theorem title_rows_carry_storage_keys (D : list document) :
  Forall (λ d, ∃ items, topics d = Present items ∧ items ≠ []) D →
  ∃ rows, get_document_title_per_topic D = Ok rows ∧ Forall2 title_row_matches D rows.
Proof.
  rewrite get_document_title_per_topic_mapM.
  induction 1 as [|d D (items & Hd & Hne) _ (rows & Hrows & IH)].
  - exists []. split; [done | constructor].
  - destruct (py_max_succeeds snd items Hne) as [[key p] Hmax].
    pose proof (dominant_topic_Present d items Hd) as Hdom. rewrite Hmax in Hdom.
    exists (TitleRow (year d) (title d) (journal d) key p :: rows). split.
    + rewrite mapM_cons, Hrows. unfold title_row_of. by rewrite Hdom.
    + constructor; [|done]. unfold title_row_matches. simpl. do 3 (split; [done|]).
      destruct (py_max_Ok _ _ _ Hmax) as (l1 & l2 & Heq & H1 & H2).
      exists items, l1, l2. split; [done|]. split; [by apply (py_max_elem_of snd)|].
      split; [done|]. split; done.
Qed.

Lemma title_rows_carry_storage_keys_witness :
  title_row_matches doc_03
    (TitleRow 2018 "Leading zero" "Fish and Fisheries" "03" (frac 6 10)).
Proof.
  destruct (title_rows_carry_storage_keys [doc_03]) as (rows & Hrows & Hmatch).
  { repeat constructor. by eexists. }
  assert (get_document_title_per_topic [doc_03]
          = Ok [TitleRow 2018 "Leading zero" "Fish and Fisheries" "03" (frac 6 10)])
    as Hrun by by_evaluation.
  rewrite Hrun in Hrows. injection Hrows as <-.
  by apply Forall2_cons_1 in Hmatch as [Hrow _].
Defined.

Example title_row_of_doc_3 :
  get_document_title_per_topic [doc_3]
    = Ok [TitleRow 2018 "Narrow lenses" "Fish and Fisheries" "3" (frac 6 10)].
Proof. by_evaluation. Qed.

(** ** The inference pass *)

Lemma dict_get_dict_set (k k' : string) (v : Qc) (items : topic_items) :
  dict_get k' (dict_set k v items) = if decide (k' = k) then Some v else dict_get k' items.
Proof.
  unfold dict_get.
  induction items as [|[k0 v0] items IH]; cbn [dict_set assoc_get fst snd].
  - case_bool_decide; case_decide; done || congruence.
  - case_bool_decide as Hk0; cbn [assoc_get fst snd].
    + subst k0. case_bool_decide; case_decide; done || congruence.
    + rewrite IH. case_bool_decide; case_decide; done || congruence.
Qed.

Lemma dict_set_fresh (k : string) (v : Qc) (items : topic_items) :
  k ∉ items.*1 → dict_set k v items = items ++ [(k, v)].
Proof.
  induction items as [|[k0 v0] items IH]; intros Hk; [done|].
  apply not_elem_of_cons in Hk as [Hne Hk]. cbn [dict_set fst].
  rewrite bool_decide_eq_false_2 by done. by rewrite IH.
Qed.

(** The mapping written for a distribution holds, under the decimal
    notation of each topic id, the probability of the last pair
    inferred for that id. *)
Lemma dict_get_dic_topics_of (topics : list (Z * Qc)) (id : Z) :
  dict_get (py_str id) (dic_topics_of topics)
  = snd <$> last (filter (λ t, t.1 = id) topics).
Proof.
  unfold dic_topics_of.
  assert (∀ dic, dict_get (py_str id)
            (foldl (λ dic_topics t, dict_set (py_str t.1) t.2 dic_topics) dic topics)
          = from_option Some (dict_get (py_str id) dic)
              (snd <$> last (filter (λ t, t.1 = id) topics))) as Hgen.
  { induction topics as [|[id0 p0] topics IH]; intros dic; [done|].
    cbn [foldl]. rewrite IH, dict_get_dict_set, filter_cons. cbn [fst snd].
    destruct (decide (id0 = id)) as [->|Hne].
    - rewrite decide_True by done.
      destruct (filter _ topics) as [|t ts] eqn:Hf; [done|].
      rewrite last_cons_cons.
      destruct (proj2 (last_is_Some (t :: ts))) as [t' ->]; done.
    - rewrite decide_False; [done|]. intros Heq. apply Hne.
      symmetry. by apply (inj pretty). }
  rewrite Hgen. by destruct (snd <$> last _).
Qed.

(** When the model reports each topic id once, the mapping written
    is the distribution itself, each id replaced by its decimal
    notation. *)
Lemma dic_topics_of_NoDup (topics : list (Z * Qc)) :
  NoDup topics.*1 → dic_topics_of topics = (λ t, (py_str t.1, t.2)) <$> topics.
Proof.
  unfold dic_topics_of.
  assert (∀ dic, NoDup topics.*1 → (∀ t, t ∈ topics → py_str t.1 ∉ dic.*1) →
            foldl (λ dic_topics t, dict_set (py_str t.1) t.2 dic_topics) dic topics
            = dic ++ ((λ t, (py_str t.1, t.2)) <$> topics)) as Hgen.
  { induction topics as [|[id0 p0] topics IH]; intros dic Hnd Hfresh.
    - by rewrite app_nil_r.
    - apply NoDup_cons in Hnd as [Hid0 Hnd]. cbn [foldl fst snd].
      rewrite dict_set_fresh by (apply (Hfresh (id0, p0)); left).
      rewrite IH; [by rewrite <- (assoc_L (++)) | done |].
      intros [id p] Hin. rewrite fmap_app. cbn [fst].
      intros [Hd|Hd%list_elem_of_singleton]%elem_of_app.
      + by apply (Hfresh (id, p)); [right|].
      + cbn [fst] in Hd. apply (inj pretty) in Hd. subst id0. apply Hid0.
        apply list_elem_of_fmap. by exists (id, p). }
  intros Hnd. by apply (Hgen []); [|intros t _ ?%elem_of_nil].
Qed.

Section inference_spec.
Variable get_document_topics : list string → list (Z * Qc).

Local Abbreviation derived_record := (derived_record get_document_topics).

Lemma infer_loop (db : store) (D : list document) :
  foldl (λ db d,
      match tokens d with
      | Present toks =>
          insert_one_to_collection Publications (insert_doc_of get_document_topics d toks) db
      | _ => db
      end) db D
  = Store (publications_raw db) (publications db ++ omap derived_record D).
Proof.
  revert db. induction D as [|d D IH]; intros [raw pubs]; cbn [foldl].
  - simpl. by rewrite app_nil_r.
  - rewrite IH. unfold derived_record at 2. cbn [omap list_omap].
    destruct (tokens d); simpl; [done | done |].
    by rewrite <- (assoc_L (++)).
Qed.

(** Claim C7. The inference pass leaves the raw collection as it
    was and adds to the derived collection, in order, one record for
    each raw record that has a token list; a record whose token list
    is missing or null contributes nothing, and nothing raises. The
    record added keeps journal, year and title, has no token list,
    and holds under [topics] the inferred distribution keyed by the
    decimal notation of the topic ids. *)
Theorem infer_document_topic_distribution_spec (db : store) :
  publications_raw (infer_document_topic_distribution get_document_topics db)
    = publications_raw db ∧
  publications (infer_document_topic_distribution get_document_topics db)
    = publications db ++ omap derived_record (publications_raw db) ∧
  (∀ d, is_not_None (tokens d) = false → derived_record d = None) ∧
  (∀ d toks, tokens d = Present toks →
     ∃ dic,
       derived_record d
         = Some (Document (journal d) (year d) (title d) Absent (Present dic)) ∧
       (∀ id, dict_get (py_str id) dic
              = snd <$> last (filter (λ t, t.1 = id) (get_document_topics toks))) ∧
       (NoDup (get_document_topics toks).*1 →
          dic = (λ t, (py_str t.1, t.2)) <$> get_document_topics toks)).
Proof.
  unfold infer_document_topic_distribution. rewrite infer_loop.
  split; [done|]. split; [done|]. split.
  - intros d Hd. unfold derived_record. by destruct (tokens d).
  - intros d toks Hd. exists (dic_topics_of (get_document_topics toks)).
    split; [|split].
    + unfold derived_record. by rewrite Hd.
    + intros id. apply dict_get_dic_topics_of.
    + apply dic_topics_of_NoDup.
Qed.
End inference_spec.

Lemma infer_document_topic_distribution_spec_witness :
  infer_document_topic_distribution two_topics
    (Store [raw_with_tokens; raw_without_tokens] [])
  = Store [raw_with_tokens; raw_without_tokens]
      [Document "Fish and Fisheries" 2018 "Narrow lenses" Absent
         (Present [("0", frac 1 4); ("3", frac 3 4)])].
Proof.
  destruct (infer_document_topic_distribution_spec two_topics
              (Store [raw_with_tokens; raw_without_tokens] []))
    as (Hraw & Hpubs & _ & _).
  destruct (infer_document_topic_distribution two_topics _) as [raw pubs].
  simpl in Hraw, Hpubs. by rewrite Hraw, Hpubs.
Defined.

(** ** The suppression of self co-occurrence *)

Lemma assoc_get_NoDup {V} (k : string) (v : V) (l : list (string * V)) :
  NoDup l.*1 → (k, v) ∈ l → assoc_get k l = Some v.
Proof.
  induction l as [|[k0 v0] l IH]; intros Hnd Hin; [by apply elem_of_nil in Hin|].
  apply NoDup_cons in Hnd as [Hk0 Hnd]. cbn [assoc_get fst snd].
  apply elem_of_cons in Hin as [[= -> ->]|Hin].
  - by rewrite bool_decide_eq_true_2.
  - rewrite bool_decide_eq_false_2; [by apply IH|].
    intros ->. apply Hk0. apply list_elem_of_fmap. by exists (k, v).
Qed.

Lemma set_rows_unique (index : list string) (row : string) (x : Qc) (v : list Qc) (i : nat) :
  NoDup index → index !! i = Some row → length v = length index →
  set_rows index row x v = <[i := x]> v.
Proof.
  intros Hnd Hi Hlen. apply list_eq. intros j. unfold set_rows.
  rewrite lookup_zip_with.
  destruct (index !! j) as [label|] eqn:Hj; simpl.
  - destruct (v !! j) as [y|] eqn:Hv; simpl.
    + case_bool_decide as Hlabel.
      * subst label. assert (j = i) as -> by (by eapply NoDup_lookup).
        rewrite list_lookup_insert_eq; [done|]. by eapply lookup_lt_Some.
      * rewrite list_lookup_insert_ne; [done|]. intros ->. congruence.
    + apply lookup_lt_Some in Hj. apply lookup_ge_None in Hv. lia.
  - apply lookup_ge_None in Hj. symmetry. apply lookup_ge_None.
    rewrite length_insert. lia.
Qed.

Section self_suppression.
Variable get_topic_label : nat → string.
Variable n : nat.
Variable cum : gmap nat (list Qc).

Hypothesis labels_NoDup : NoDup (get_topic_label <$> seq 0 n).
Hypothesis labels_not_max : "max" ∉ get_topic_label <$> seq 0 n.
Hypothesis cum_rows : common_length (map_to_list cum).*2 = Ok n.
Hypothesis cum_keys : dom cum ⊆ set_seq 0 n.

Local Abbreviation suppressed_columns := (suppressed_columns get_topic_label cum).
Local Abbreviation frame_at := (frame_at get_topic_label n cum).

Lemma cum_key_lt (k : nat) (v : list Qc) : cum !! k = Some v → (k < n)%nat.
Proof.
  intros Hk. assert (k ∈ dom cum) as Hd by (apply elem_of_dom; by eexists).
  apply cum_keys, elem_of_set_seq in Hd. lia.
Qed.

Lemma cum_lengths (k : nat) (v : list Qc) : cum !! k = Some v → length v = n.
Proof.
  intros Hk%elem_of_map_to_list. pose proof cum_rows as Hrows.
  unfold common_length in Hrows.
  destruct (map_to_list cum) as [|[k0 v0] l]; [by apply elem_of_nil in Hk|].
  csimpl in Hrows. case_bool_decide as Hall; [|done]. injection Hrows as <-.
  change (v0 :: l.*2) with (((k0, v0) :: l).*2) in Hall.
  rewrite Forall_fmap, Forall_forall in Hall. by apply (Hall (k, v)).
Qed.

Lemma label_lookup (i : nat) :
  (i < n)%nat → (get_topic_label <$> seq 0 n) !! i = Some (get_topic_label i).
Proof. intros Hi. by rewrite list_lookup_fmap, lookup_seq_lt. Qed.

Lemma label_inj (i j : nat) :
  (i < n)%nat → (j < n)%nat → get_topic_label i = get_topic_label j → i = j.
Proof.
  intros Hi Hj Heq. apply (NoDup_lookup _ i j (get_topic_label i) labels_NoDup).
  - by apply label_lookup.
  - rewrite Heq. by apply label_lookup.
Qed.

Lemma label_not_max (i : nat) : (i < n)%nat → get_topic_label i ≠ "max".
Proof.
  intros Hi Heq. apply labels_not_max. rewrite <- Heq.
  eapply list_elem_of_lookup_2. by apply label_lookup.
Qed.

Lemma suppressed_columns_labels (i : nat) :
  (suppressed_columns i).*1 = get_topic_label <$> (map_to_list cum).*1.
Proof.
  unfold suppressed_columns. rewrite <- !list_fmap_compose. by apply list_fmap_ext.
Qed.

Lemma suppressed_columns_not_max (i : nat) : "max" ∉ (suppressed_columns i).*1.
Proof.
  rewrite suppressed_columns_labels.
  intros (k & Hk & ([k' v] & -> & Hin%elem_of_map_to_list)%list_elem_of_fmap)
    %list_elem_of_fmap.
  simpl in Hk. apply (label_not_max k'); [by eapply cum_key_lt | done].
Qed.

Lemma suppressed_columns_NoDup (i : nat) : NoDup (suppressed_columns i).*1.
Proof.
  rewrite suppressed_columns_labels. apply NoDup_fmap_2_strong.
  - intros k k' ([k1 v] & -> & Hin%elem_of_map_to_list)%list_elem_of_fmap
      ([k2 v'] & -> & Hin'%elem_of_map_to_list)%list_elem_of_fmap. simpl.
    apply label_inj; by eapply cum_key_lt.
  - apply NoDup_fst_map_to_list.
Qed.

Lemma labelled_frame_columns :
  labelled_frame get_topic_label cum
  = Ok (Frame (get_topic_label <$> seq 0 n) (suppressed_columns 0)).
Proof. unfold labelled_frame. by rewrite cum_rows, Ok_bind. Qed.

Lemma length_labels : length (get_topic_label <$> seq 0 n) = n.
Proof. by rewrite length_fmap, length_seq. Qed.

Lemma assign_max_column :
  assign_column "max" 0 (Frame (get_topic_label <$> seq 0 n) (suppressed_columns 0))
  = frame_at 0 (replicate n 0).
Proof.
  unfold assign_column, frame_at. cbn [df_index df_columns].
  rewrite bool_decide_eq_false_2 by apply suppressed_columns_not_max.
  by rewrite length_labels.
Qed.

Lemma set_cell_max (i j : nat) (m : Qc) (maxcol : list Qc) :
  (i < n)%nat → length maxcol = n →
  set_cell "max" (get_topic_label i) m (frame_at j maxcol)
  = Ok (frame_at j (<[i := m]> maxcol)).
Proof.
  intros Hi Hlen. unfold set_cell, frame_at. cbn [df_index df_columns].
  rewrite bool_decide_eq_true_2.
  2:{ rewrite fmap_app. apply elem_of_app. right. left. }
  do 2 f_equal. rewrite fmap_app. f_equal.
  - rewrite <- (list_fmap_id (suppressed_columns j)) at 2.
    apply list_fmap_ext. intros _ [label v] Hin%list_elem_of_lookup_2. cbn [fst snd].
    rewrite bool_decide_eq_false_2; [done|]. intros ->.
    apply (suppressed_columns_not_max j). apply list_elem_of_fmap. by exists ("max", v).
  - cbn [fmap list_fmap fst snd]. rewrite bool_decide_eq_true_2 by done.
    do 2 f_equal. apply set_rows_unique;
      [done | by apply label_lookup | by rewrite length_labels].
Qed.

Lemma set_cell_diagonal (i : nat) (maxcol : list Qc) :
  (i < n)%nat → is_Some (cum !! i) →
  set_cell (get_topic_label i) (get_topic_label i) 0 (frame_at i maxcol)
  = Ok (frame_at (S i) maxcol).
Proof.
  intros Hi [vi Hvi]. unfold set_cell, frame_at. cbn [df_index df_columns].
  rewrite bool_decide_eq_true_2.
  2:{ rewrite fmap_app. apply elem_of_app. left. rewrite suppressed_columns_labels.
      apply list_elem_of_fmap. exists i. split; [done|].
      apply list_elem_of_fmap. exists (i, vi). split; [done|].
      by apply elem_of_map_to_list. }
  do 2 f_equal. rewrite fmap_app. f_equal.
  - unfold suppressed_columns. rewrite <- list_fmap_compose.
    apply list_fmap_ext. intros _ [k v] Hin%list_elem_of_lookup_2%elem_of_map_to_list.
    cbn [compose fst snd].
    pose proof (cum_key_lt k v Hin) as Hk.
    pose proof (cum_lengths k v Hin) as Hv. cbn beta in Hv.
    case_bool_decide as Hlabel.
    + apply label_inj in Hlabel; [|done..]. subst k.
      rewrite decide_False by lia. rewrite decide_True by lia. f_equal.
      apply set_rows_unique; [done | by apply label_lookup | by rewrite length_labels].
    + assert (k ≠ i) by (by intros ->).
      destruct (decide (k < i)%nat); [rewrite decide_True by lia | rewrite decide_False by lia];
        done.
  - cbn [fmap list_fmap fst snd]. rewrite bool_decide_eq_false_2; [done|].
    intros Heq. by apply (label_not_max i).
Qed.

(** A row whose topic is the key of no vector has no column. *)
Lemma set_cell_diagonal_missing (i j : nat) (maxcol : list Qc) :
  (i < n)%nat → cum !! i = None →
  set_cell (get_topic_label i) (get_topic_label i) 0 (frame_at j maxcol)
  = Raise (ColumnKeyError (get_topic_label i)).
Proof.
  intros Hi Hnone. unfold set_cell, frame_at. cbn [df_index df_columns].
  rewrite bool_decide_eq_false_2; [done|]. rewrite fmap_app.
  intros [Hin|Hin%list_elem_of_singleton]%elem_of_app.
  - rewrite suppressed_columns_labels in Hin.
    apply list_elem_of_fmap in Hin as (k & Hk & Hkin).
    apply list_elem_of_fmap in Hkin as ([k' v] & -> & Hkv%elem_of_map_to_list).
    cbn [fst] in Hk. apply label_inj in Hk; [|done | by eapply cum_key_lt].
    congruence.
  - by apply (label_not_max i).
Qed.

Lemma row_values_max (i j : nat) (maxcol : list Qc) :
  succeeds (py_max id (row_values i (frame_at j maxcol))).
Proof.
  apply py_max_succeeds. unfold row_values, frame_at. cbn [df_columns].
  rewrite fmap_app. intros Hnil. by apply app_eq_nil in Hnil as [_ ?].
Qed.

Lemma suppress_row_missing (i : nat) (maxcol : list Qc) :
  (i < n)%nat → length maxcol = n → cum !! i = None →
  suppress_row (frame_at i maxcol) (i, get_topic_label i)
  = Raise (ColumnKeyError (get_topic_label i)).
Proof.
  intros Hi Hlen Hnone. unfold suppress_row. cbn [fst snd].
  destruct (row_values_max i i maxcol) as [m Hm].
  rewrite Hm, Ok_bind, (set_cell_max i i m maxcol Hi Hlen), Ok_bind.
  by apply set_cell_diagonal_missing.
Qed.

Lemma suppress_row_step (i : nat) (maxcol : list Qc) :
  (i < n)%nat → length maxcol = n → is_Some (cum !! i) →
  ∃ maxcol', length maxcol' = n ∧
    suppress_row (frame_at i maxcol) (i, get_topic_label i) = Ok (frame_at (S i) maxcol').
Proof.
  intros Hi Hlen Hsome. unfold suppress_row. cbn [fst snd].
  destruct (py_max_succeeds id (row_values i (frame_at i maxcol))) as [m Hm].
  { unfold row_values, frame_at. cbn [df_columns]. rewrite fmap_app.
    intros Hnil. by apply app_eq_nil in Hnil as [_ ?]. }
  exists (<[i := m]> maxcol). split; [by rewrite length_insert|].
  rewrite Hm, Ok_bind, (set_cell_max i i m maxcol Hi Hlen), Ok_bind.
  by apply set_cell_diagonal.
Qed.

Lemma suppress_loop (b a : nat) (maxcol : list Qc) :
  (a + b ≤ n)%nat → length maxcol = n →
  (∀ i, (a ≤ i < a + b)%nat → is_Some (cum !! i)) →
  ∃ maxcol', length maxcol' = n ∧
    for_each suppress_row (frame_at a maxcol)
      ((λ i, (i, get_topic_label i)) <$> seq a b) = Ok (frame_at (a + b) maxcol').
Proof.
  revert a maxcol. induction b as [|b IH]; intros a maxcol Hab Hlen Hkeys.
  - exists maxcol. split; [done|]. by rewrite Nat.add_0_r.
  - cbn [seq fmap list_fmap]. rewrite for_each_cons.
    destruct (suppress_row_step a maxcol) as (maxcol1 & Hlen1 & ->);
      [lia | done | apply Hkeys; lia |].
    rewrite Ok_bind.
    destruct (IH (S a) maxcol1) as (maxcol2 & Hlen2 & Hloop);
      [lia | done | intros i Hi; apply Hkeys; lia |].
    exists maxcol2. split; [done|]. rewrite Hloop. f_equal. f_equal. lia.
Qed.

(** The loop gets through only if every row has its column. *)
Lemma suppress_loop_Ok (b a : nat) (maxcol : list Qc) (df : DataFrame) :
  (a + b ≤ n)%nat → length maxcol = n →
  for_each suppress_row (frame_at a maxcol)
    ((λ i, (i, get_topic_label i)) <$> seq a b) = Ok df →
  ∀ i, (a ≤ i < a + b)%nat → is_Some (cum !! i).
Proof.
  revert a maxcol. induction b as [|b IH]; intros a maxcol Hab Hlen Hloop i Hi; [lia|].
  cbn [seq fmap list_fmap] in Hloop. rewrite for_each_cons in Hloop.
  destruct (cum !! a) as [v|] eqn:Ha.
  - destruct (suppress_row_step a maxcol) as (maxcol1 & Hlen1 & Hstep);
      [lia | done | by eexists |].
    rewrite Hstep, Ok_bind in Hloop.
    destruct (decide (i = a)) as [->|Hne]; [by rewrite Ha|].
    apply (IH (S a) maxcol1); [lia | done | done | lia].
  - rewrite (suppress_row_missing a maxcol) in Hloop by (lia || done). done.
Qed.

Lemma index_rows :
  imap (λ i label, (i, label)) (get_topic_label <$> seq 0 n)
  = (λ i, (i, get_topic_label i)) <$> seq 0 n.
Proof.
  apply list_eq. intros i. rewrite list_lookup_imap, !list_lookup_fmap.
  destruct (seq 0 n !! i) as [j|] eqn:Hj; [|done].
  apply lookup_seq in Hj as [-> _]. done.
Qed.

Lemma self_suppress_loop :
  self_suppress get_topic_label cum
  = for_each suppress_row (frame_at 0 (replicate n 0))
      ((λ i, (i, get_topic_label i)) <$> seq 0 n).
Proof.
  unfold self_suppress. rewrite labelled_frame_columns, Ok_bind, assign_max_column.
  unfold frame_at at 2. cbn [df_index]. by rewrite index_rows.
Qed.

Lemma self_suppress_frame :
  (∀ i, (i < n)%nat → is_Some (cum !! i)) →
  ∃ maxcol, self_suppress get_topic_label cum = Ok (frame_at n maxcol).
Proof.
  intros Hkeys. rewrite self_suppress_loop.
  destruct (suppress_loop n 0 (replicate n 0)) as (maxcol & _ & Hloop);
    [lia | by rewrite length_replicate | intros i Hi; apply Hkeys; lia |].
  exists maxcol. exact Hloop.
Qed.

Lemma self_suppress_Ok_keys (df : DataFrame) :
  self_suppress get_topic_label cum = Ok df → ∀ i, (i < n)%nat → is_Some (cum !! i).
Proof.
  rewrite self_suppress_loop. intros Hloop i Hi.
  apply (suppress_loop_Ok n 0 (replicate n 0) df); [lia | by rewrite length_replicate | done | lia].
Qed.

(** The loop raises at the first row whose topic is the key of no
    vector, after it has gone through the rows before it. *)
Lemma self_suppress_first_missing (i : nat) :
  (i < n)%nat → cum !! i = None → (∀ j, (j < i)%nat → is_Some (cum !! j)) →
  self_suppress get_topic_label cum = Raise (ColumnKeyError (get_topic_label i)).
Proof.
  intros Hi Hnone Hbefore. rewrite self_suppress_loop.
  assert (seq 0 n = seq 0 i ++ i :: seq (S i) (n - S i)) as ->.
  { replace n with (i + S (n - S i))%nat at 1 by lia. by rewrite seq_app. }
  rewrite fmap_app, for_each_app.
  destruct (suppress_loop i 0 (replicate n 0)) as (maxcol & Hlen & Hloop);
    [lia | by rewrite length_replicate | intros j Hj; apply Hbefore; lia |].
  rewrite Hloop, Ok_bind. cbn [fmap list_fmap]. rewrite for_each_cons.
  change (0 + i)%nat with i. by rewrite (suppress_row_missing i maxcol Hi Hlen Hnone).
Qed.

Lemma get_column_frame_at (k : nat) (v maxcol : list Qc) :
  cum !! k = Some v →
  get_column (get_topic_label k) (frame_at n maxcol) = Some (<[k := 0]> v).
Proof.
  intros Hk. unfold get_column, frame_at. cbn [df_columns].
  apply assoc_get_NoDup.
  - rewrite fmap_app. apply NoDup_app. split; [apply suppressed_columns_NoDup|].
    split; [|apply NoDup_singleton].
    intros label Hlabel ->%list_elem_of_singleton.
    by apply (suppressed_columns_not_max n).
  - apply elem_of_app. left. unfold suppressed_columns.
    apply list_elem_of_fmap. exists (k, v). split; [|by apply elem_of_map_to_list].
    cbn [fst snd]. by rewrite decide_True by (by eapply cum_key_lt).
Qed.
End self_suppression.

Lemma reduce_buckets_plain_mean `{Countable K} (b : gmap K (list (list Qc)))
    (c : gmap K (list Qc)) (k : K) (v : list (list Qc)) :
  reduce_buckets np_mean_axis0 b = Ok c → b !! k = Some v →
  ∃ m, c !! k = Some m ∧ np_mean_axis0 v = Ok m.
Proof.
  intros Hc Hk. pose proof (proj1 (reduce_buckets_lookup _ _ _) Hc k) as Hrel.
  rewrite Hk in Hrel. inversion Hrel as [v' m Hm|]; simplify_eq. by exists m.
Qed.

Lemma np_mean_axis0_lookup (rows : list (list Qc)) (m : list Qc) (j : nat) :
  np_mean_axis0 rows = Ok m → (j < length m)%nat →
  m !! j = Some (sum_list (column j rows) / Qc_of_nat (length rows)).
Proof.
  destruct rows as [|r rows]; [done|]. unfold np_mean_axis0.
  case_bool_decide; [|done]. intros [= <-]. rewrite length_fmap, length_seq. intros Hj.
  by rewrite list_lookup_fmap, lookup_seq_lt.
Qed.

(** A reducer without suppression: every component of the vector kept
    under a key is the plain mean of that column of the bucket. *)
Lemma reduce_buckets_column_means `{Countable K} (b : gmap K (list (list Qc)))
    (c : gmap K (list Qc)) (k : K) (v : list (list Qc)) :
  reduce_buckets np_mean_axis0 b = Ok c → b !! k = Some v →
  v ≠ [] ∧
  ∃ m, c !! k = Some m ∧ (∀ r, r ∈ v → length r = length m) ∧
    ∀ j, (j < length m)%nat →
      m !! j = Some (sum_list (column j v) / Qc_of_nat (length v)).
Proof.
  intros Hc Hk. destruct (reduce_buckets_plain_mean b c k v Hc Hk) as (m & Hm & Hmean).
  split; [by intros ->|]. exists m. split; [done|]. split.
  - intros r Hr. destruct v as [|r0 v]; [done|]. unfold np_mean_axis0 in Hmean.
    case_bool_decide as Hall; [|done]. injection Hmean as <-.
    rewrite length_fmap, length_seq. by apply (proj1 (Forall_forall _ _) Hall).
  - intros j Hj. by apply np_mean_axis0_lookup.
Qed.




(** A topic that is dominant in no record has no column, and the
    loop raises at its row: here topic 1 of a two-topic record. *)
Example co_occurrence_frame_missing_column :
  plot_topic_co_occurrence pretty [doc_a] = Raise (ColumnKeyError "1").
Proof. by_evaluation. Qed.

Example co_occurrence_frame_of_two_records :
  plot_topic_co_occurrence pretty [doc_a; doc_b]
  = Ok (Frame ["0"; "1"]
          [("1", [frac 25 1; 0]); ("0", [0; frac 50 1]); ("max", [frac 50 1; frac 75 1])]).
Proof. by_evaluation. Qed.

(** ** [int] reads back what [str] writes *)

Lemma digit_value_pretty_N_char (d : N) :
  (d < 10)%N → digit_value (pretty_N_char d) = Some (Z.of_N d).
Proof.
  intros Hd.
  assert (d = 0 ∨ d = 1 ∨ d = 2 ∨ d = 3 ∨ d = 4 ∨ d = 5 ∨ d = 6 ∨ d = 7 ∨ d = 8 ∨ d = 9)%N
    as Hcases by lia.
  destruct_or! Hcases; by subst d.
Qed.

Lemma is_digit_not_space (a : ascii) : is_digit a → py_isspace a = false.
Proof.
  unfold is_digit, digit_value, py_isspace. intros [z Hz].
  destruct (48 <=? nat_of_ascii a)%nat eqn:H1; [|done].
  destruct (nat_of_ascii a <=? 57)%nat eqn:H2; [|done].
  apply Nat.leb_le in H1. apply Nat.leb_le in H2.
  apply orb_false_iff. split.
  - apply Nat.eqb_neq. lia.
  - apply andb_false_iff. right. apply Nat.leb_gt. lia.
Qed.

Lemma lstrip_no_space (l : list ascii) :
  Forall (λ a, py_isspace a = false) l → lstrip l = l.
Proof. destruct 1 as [|a l Ha _]; [done|]. simpl. by rewrite Ha. Qed.

Lemma strip_no_space (l : list ascii) :
  Forall (λ a, py_isspace a = false) l → strip l = l.
Proof.
  intros Hl. unfold strip. rewrite (lstrip_no_space l Hl), lstrip_no_space.
  - apply rev_involutive.
  - apply Forall_forall. intros a Ha%list_elem_of_In%in_rev%list_elem_of_In.
    by eapply (proj1 (Forall_forall _ _) Hl).
Qed.

Lemma digits_value_app (acc : Z) (l1 l2 : list ascii) :
  digits_value acc (l1 ++ l2) = digits_value acc l1 ≫= λ a, digits_value a l2.
Proof.
  revert acc. induction l1 as [|a l1 IH]; intros acc; [done|]. simpl.
  destruct (digit_value a) as [d|]; simpl; [apply IH | done].
Qed.

(** The digits that [pretty] puts in front of a string. *)
Lemma pretty_N_go_digits (x : N) :
  ∃ ds, Forall is_digit ds ∧ ((0 < x)%N → ds ≠ []) ∧
    (∀ acc, digits_value acc ds = Some (acc * 10 ^ Z.of_nat (length ds) + Z.of_N x)%Z) ∧
    ∀ s, list_ascii_of_string (pretty_N_go x s) = ds ++ list_ascii_of_string s.
Proof.
  induction (N.lt_wf_0 x) as [x _ IH].
  destruct (decide (x = 0)%N) as [->|Hx].
  - exists []. split; [constructor|]. split; [lia|]. split; [|done].
    intros acc. simpl. f_equal. lia.
  - destruct (IH (x `div` 10)%N) as (ds & Hds & _ & Hval & Hstr).
    { apply N.div_lt; lia. }
    pose proof (digit_value_pretty_N_char (x `mod` 10)%N) as Hchar.
    exists (ds ++ [pretty_N_char (x `mod` 10)%N]). split; [|split; [|split]].
    + apply Forall_app. split; [done|]. constructor; [|constructor].
      unfold is_digit. rewrite Hchar; [by eexists|]. by apply N.mod_lt.
    + intros _ Hnil. by apply app_eq_nil in Hnil as [_ ?].
    + intros acc. rewrite digits_value_app, Hval. simpl.
      rewrite Hchar by (by apply N.mod_lt). simpl. f_equal.
      rewrite length_app. simpl. rewrite Nat2Z.inj_add, Z.pow_add_r by lia.
      change (Z.of_nat 1) with 1%Z. rewrite Z.pow_1_r.
      pose proof (N.div_mod x 10 ltac:(done)) as Hdm.
      assert (Z.of_N x = 10 * Z.of_N (x `div` 10) + Z.of_N (x `mod` 10))%Z as -> by lia.
      ring.
    + intros s. rewrite pretty_N_go_step by lia. rewrite Hstr. simpl.
      by rewrite <- (assoc_L (++)).
Qed.

Lemma parse_digits (a : ascii) (l : list ascii) :
  Forall is_digit (a :: l) →
  parse_int (string_of_list_ascii (a :: l)) = digits_value 0 (a :: l).
Proof.
  intros Hl. unfold parse_int. rewrite list_ascii_of_string_of_list_ascii.
  rewrite strip_no_space.
  2:{ eapply Forall_impl; [exact Hl|]. apply is_digit_not_space. }
  apply Forall_cons in Hl as [Ha _].
  destruct a as [[] [] [] [] [] [] [] []]; try done;
    by destruct Ha as [? [=]].
Qed.

Lemma pretty_pos_digits (p : positive) :
  ∃ a ds, Forall is_digit (a :: ds) ∧ digits_value 0 (a :: ds) = Some (Z.pos p) ∧
          pretty (N.pos p) = string_of_list_ascii (a :: ds).
Proof.
  destruct (pretty_N_go_digits (N.pos p)) as (ds & Hds & Hne & Hval & Hstr).
  destruct ds as [|a ds]; [by destruct Hne|].
  exists a, ds. split; [done|]. split.
  - rewrite Hval. f_equal; lia.
  - unfold pretty, pretty_N. rewrite decide_False by done.
    rewrite <- (string_of_list_ascii_of_string (pretty_N_go _ _)), Hstr.
    cbn [list_ascii_of_string]. by rewrite app_nil_r.
Qed.

(** The key written by the inference pass for topic id [z] is read
    back as [z] by the aggregation passes. *)
Lemma parse_int_py_str (z : Z) : parse_int (py_str z) = Some z.
Proof.
  unfold py_str. destruct z as [|p|p].
  - done.
  - change (pretty (Z.pos p)) with (pretty (N.pos p)).
    destruct (pretty_pos_digits p) as (a & ds & Hds & Hval & ->).
    by rewrite parse_digits.
  - change (pretty (Z.neg p)) with ("-" +:+ pretty (N.pos p)).
    destruct (pretty_pos_digits p) as (a & ds & Hds & Hval & ->).
    unfold parse_int.
    change ("-" +:+ string_of_list_ascii (a :: ds))
      with (string_of_list_ascii ("-"%char :: a :: ds)).
    rewrite list_ascii_of_string_of_list_ascii, strip_no_space.
    + unfold unsigned_literal. by rewrite Hval.
    + constructor; [done|]. eapply Forall_impl; [exact Hds|]. apply is_digit_not_space.
Qed.

Lemma py_int_py_str (z : Z) : py_int (py_str z) = Ok z.
Proof. apply py_int_Ok, parse_int_py_str. Qed.

(** The mapping written for a distribution that names each topic id
    once carries exactly these ids, so that the aggregation passes
    read it without a [ValueError]. *)
Lemma dic_topics_of_has_ids (topics : list (Z * Qc)) :
  NoDup topics.*1 → has_ids (dic_topics_of topics) topics.*1.
Proof.
  intros Hnd. rewrite (dic_topics_of_NoDup topics Hnd). unfold has_ids.
  apply Forall2_fmap, Forall_Forall2_diag, Forall_forall.
  intros [id p] _. apply parse_int_py_str.
Qed.

(** * Further properties of the code *)

(** ** From the inference pass to the topic vector *)

Lemma insert_by_key_fmap {A B} (g : Z * A → Z * B) (x : Z * A) (l : list (Z * A)) :
  (∀ y, (g y).1 = y.1) →
  insert_by_key (g x) (g <$> l) = g <$> insert_by_key x l.
Proof.
  intros Hg. induction l as [|y l IH]; [done|]. cbn [fmap list_fmap insert_by_key].
  rewrite !Hg. destruct (x.1 <=? y.1)%Z; [done|]. csimpl. by rewrite <- IH.
Qed.

Lemma sort_by_key_fmap {A B} (g : Z * A → Z * B) (l : list (Z * A)) :
  (∀ y, (g y).1 = y.1) → sort_by_key (g <$> l) = g <$> sort_by_key l.
Proof.
  intros Hg. induction l as [|x l IH]; [done|]. cbn [fmap list_fmap sort_by_key foldr].
  fold (sort_by_key l). fold (sort_by_key (g <$> l)).
  by rewrite IH, insert_by_key_fmap.
Qed.



(** ** The derived collection is readable *)

Lemma elem_of_dict_set (k : string) (v : Qc) (items : topic_items) (kv : string * Qc) :
  kv ∈ dict_set k v items → kv = (k, v) ∨ kv ∈ items.
Proof.
  induction items as [|kv0 items IH]; cbn [dict_set].
  - intros ->%list_elem_of_singleton. by left.
  - case_bool_decide.
    + intros [->|Hin]%elem_of_cons; [by left | right; by right].
    + intros [->|Hin]%elem_of_cons; [right; left|].
      destruct (IH Hin) as [->|Hin']; [by left | right; by right].
Qed.

Lemma elem_of_dic_topics_of (topics : list (Z * Qc)) (kv : string * Qc) :
  kv ∈ dic_topics_of topics → ∃ t, t ∈ topics ∧ kv = (py_str t.1, t.2).
Proof.
  unfold dic_topics_of.
  assert (∀ dic, kv ∈ foldl (λ dic_topics t, dict_set (py_str t.1) t.2 dic_topics) dic topics →
            kv ∈ dic ∨ ∃ t, t ∈ topics ∧ kv = (py_str t.1, t.2)) as Hgen.
  { induction topics as [|t topics IH]; intros dic Hin; [by left|].
    cbn [foldl] in Hin. destruct (IH _ Hin) as [Hdic|(t' & Ht' & ->)].
    - apply elem_of_dict_set in Hdic as [->|Hdic]; [|by left].
      right. exists t. split; [left | done].
    - right. exists t'. split; [by right | done]. }
  intros Hin. destruct (Hgen [] Hin) as [Hnil|Ht]; [|done].
  by apply elem_of_nil in Hnil.
Qed.

Lemma derived_record_readable (get_document_topics : list string → list (Z * Qc))
    (d r : document) :
  derived_record get_document_topics d = Some r → readable r.
Proof.
  unfold derived_record. destruct (tokens d) as [| |toks]; [done..|]. intros [= <-].
  exists (dic_topics_of (get_document_topics toks)). split; [done|].
  apply Forall_forall. intros kv (t & _ & ->)%elem_of_dic_topics_of. cbn [fst].
  rewrite parse_int_py_str. by eexists.
Qed.

Lemma readable_year_contribution (d : document) :
  readable d → succeeds (year_contribution d).
Proof. intros Hd. by apply year_contribution_succeeds. Qed.

Lemma journal_to_topics_of_succeeds (D : list document) :
  succeeds (journal_to_topics_of D) ↔
  Forall (λ d, ∀ items, topics d = Present items →
               Forall (λ kv, is_Some (parse_int kv.1)) items) D.
Proof.
  rewrite journal_to_topics_of_grouped.
  assert (succeeds (mapM journal_contribution D ≫= λ rs,
            mret (foldl add_to_bucket (∅ : gmap string (list (list Qc))) (omap id rs)))
          ↔ succeeds (mapM journal_contribution D)) as ->.
  { destruct (mapM journal_contribution D) as [rs|e].
    - split; intros _; by eexists.
    - split; intros [? [=]]. }
  rewrite mapM_succeeds. apply Forall_proper; [|done]. intros d.
  unfold journal_contribution. destruct (topics d) as [| |items].
  - split; [by intros _ items [=] | intros _; by eexists].
  - split; [by intros _ items [=] | intros _; by eexists].
  - split.
    + intros Hs items' [= <-]. apply sorted_topic_values_succeeds.
      destruct (sorted_topic_values items) as [v|e]; [by eexists|].
      by destruct Hs as [? [=]].
    + intros Hs. destruct (proj2 (sorted_topic_values_succeeds items) (Hs items eq_refl))
        as [v ->]. by eexists.
Qed.

(** X2. The inference pass keeps the derived collection readable: when
    every record of it has a topic mapping with integer literals for
    keys, so has every record after the pass, whatever the model
    returns, and the per-year and the per-journal grouping over the
    collection return normally. *)
Theorem inference_keeps_collection_readable
    (get_document_topics : list string → list (Z * Qc)) (db : store) :
  Forall readable (publications db) →
  Forall readable (publications (infer_document_topic_distribution get_document_topics db)) ∧
  succeeds (get_year_to_topics
    (publications (infer_document_topic_distribution get_document_topics db))) ∧
  succeeds (journal_to_topics_of
    (publications (infer_document_topic_distribution get_document_topics db))).
Proof.
  intros Hdb. unfold infer_document_topic_distribution. rewrite infer_loop.
  cbn [publications read_collection].
  assert (Forall readable (publications db
            ++ omap (derived_record get_document_topics) (publications_raw db))) as Hall.
  { apply Forall_app. split; [done|]. apply Forall_forall.
    intros r (d & _ & Hr)%list_elem_of_omap. by eapply derived_record_readable. }
  split; [done|]. split.
  - apply get_year_to_topics_succeeds. eapply Forall_impl; [exact Hall|].
    apply readable_year_contribution.
  - apply journal_to_topics_of_succeeds. eapply Forall_impl; [exact Hall|].
    intros d (items & Hd & Hkeys) items' Hd'. congruence.
Qed.

Lemma inference_keeps_collection_readable_witness :
  succeeds (get_year_to_topics (publications (infer_document_topic_distribution three_topics
    (Store [raw_with_tokens; raw_without_tokens] [doc_a])))).
Proof.
  destruct (inference_keeps_collection_readable three_topics
              (Store [raw_with_tokens; raw_without_tokens] [doc_a])) as (_ & Hyear & _).
  - repeat constructor. exists [("1", frac 1 2); ("0", frac 1 2)].
    split; [done|]. repeat constructor; by eexists.
  - exact Hyear.
Defined.

(** ** What the buckets hold *)

Lemma year_contributions_vectors (D : list document) (rs : list (option (Z * list Qc))) :
  Forall2 (λ d r, year_contribution d = Ok r) D rs →
  ∃ vs, Forall2 (λ d v, ∃ items, topics d = Present items
                         ∧ sorted_topic_values items = Ok v) D vs ∧
        omap id rs = (λ dv, (year dv.1, dv.2)) <$> zip D vs.
Proof.
  induction 1 as [|d r D rs Hr _ (vs & Hvs & Heq)].
  - exists []. split; [constructor | done].
  - apply bind_Ok in Hr as (items & Hi%topics_iteritems_Ok & (v & Hv & [= <-])%bind_Ok).
    exists (v :: vs). split.
    + constructor; [by exists items | done].
    + csimpl. by rewrite Heq.
Qed.

Lemma bucket_of_years (y : Z) (l : list (document * list Qc)) :
  bucket y ((λ dv, (year dv.1, dv.2)) <$> l) = (filter (λ dv, year dv.1 = y) l).*2.
Proof.
  induction l as [|[d v] l IH]; [done|]. csimpl.
  rewrite bucket_cons, filter_cons. cbn [fst snd].
  destruct (decide (year d = y)); csimpl; by rewrite IH.
Qed.

(** X3. A successful per-year grouping has a bucket for exactly the
    years that occur; no bucket is empty, and the bucket of a year
    lists the topic vectors of the records of that year in the order
    of the records. *)
Theorem get_year_to_topics_buckets (D : list document) (m : gmap Z (list (list Qc))) :
  get_year_to_topics D = Ok m →
  ∃ vs, Forall2 (λ d v, ∃ items, topics d = Present items
                         ∧ sorted_topic_values items = Ok v) D vs ∧
    ∀ y, (is_Some (m !! y) ↔ y ∈ year <$> D) ∧
         (∀ b, m !! y = Some b → b ≠ []) ∧
         default [] (m !! y) = (filter (λ dv, year dv.1 = y) (zip D vs)).*2.
Proof.
  rewrite get_year_to_topics_grouped.
  intros (rs & Hrs%mapM_Ok & [= <-])%bind_Ok.
  destruct (year_contributions_vectors D rs Hrs) as (vs & Hvs & Heq).
  exists vs. split; [done|]. intros y.
  rewrite lookup_grouped, Heq, bucket_of_years.
  pose proof (Forall2_length _ _ _ Hvs) as Hlen.
  assert ((filter (λ dv, year dv.1 = y) (zip D vs)).*2 ≠ [] ↔ y ∈ year <$> D) as Hne.
  { split.
    - intros Hne. destruct (filter _ _) as [|[d v] l] eqn:Hf; [done|].
      assert ((d, v) ∈ filter (λ dv, year dv.1 = y) (zip D vs)) as Hin by (rewrite Hf; left).
      apply list_elem_of_filter in Hin as [Hy Hin]. cbn [fst] in Hy.
      apply list_elem_of_fmap. exists d. split; [done|]. by eapply elem_of_zip_l.
    - intros (d & -> & Hd)%list_elem_of_fmap.
      apply list_elem_of_lookup in Hd as [i Hi].
      destruct (lookup_lt_is_Some_2 vs i) as [v Hv].
      { rewrite <- Hlen. by eapply lookup_lt_Some. }
      assert ((d, v) ∈ filter (λ dv, year dv.1 = year d) (zip D vs)) as Hin.
      { apply list_elem_of_filter. split; [done|].
        apply list_elem_of_lookup. exists i. by rewrite lookup_zip_with, Hi, Hv. }
      intros Hnil. apply (f_equal length) in Hnil. rewrite length_fmap in Hnil.
      destruct (filter _ _); [by apply elem_of_nil in Hin | done]. }
  case_decide as Hb.
  - split; [|split; [done | by rewrite Hb]].
    rewrite <- Hne. split; [by intros [? [=]] | by intros []].
  - split; [|split; [by intros b [= <-] | done]].
    rewrite <- Hne. split; [done | by eexists].
Qed.

Lemma get_year_to_topics_buckets_witness :
  ∃ vs, Forall2 (λ d v, ∃ items, topics d = Present items
                         ∧ sorted_topic_values items = Ok v) [doc_a; doc_c; doc_b] vs ∧
    ∀ y, (is_Some (year_buckets !! y) ↔ y ∈ year <$> [doc_a; doc_c; doc_b]) ∧
         (∀ b, year_buckets !! y = Some b → b ≠ []) ∧
         default [] (year_buckets !! y)
         = (filter (λ dv, year dv.1 = y) (zip [doc_a; doc_c; doc_b] vs)).*2.
Proof.
  apply (get_year_to_topics_buckets [doc_a; doc_c; doc_b]). by_evaluation.
Defined.

(** ** Means of distributions are distributions *)

Lemma sum_list_app (l1 l2 : list Qc) : sum_list (l1 ++ l2) = sum_list l1 + sum_list l2.
Proof.
  unfold sum_list. induction l1 as [|x l1 IH]; simpl; [by rewrite Qcplus_0_l|].
  rewrite IH. ring.
Qed.

Lemma sum_list_fmap_plus {A} (a b : A → Qc) (l : list A) :
  sum_list ((λ j, a j + b j) <$> l) = sum_list (a <$> l) + sum_list (b <$> l).
Proof.
  unfold sum_list. induction l as [|j l IH]; csimpl; [by rewrite Qcplus_0_l|].
  rewrite IH. ring.
Qed.

Lemma sum_list_fmap_mult {A} (g : A → Qc) (c : Qc) (l : list A) :
  sum_list ((λ j, g j * c) <$> l) = sum_list (g <$> l) * c.
Proof.
  unfold sum_list. induction l as [|j l IH]; csimpl; [by rewrite Qcmult_0_l|].
  rewrite IH. ring.
Qed.

Lemma sum_list_fmap_zero {A} (l : list A) : sum_list ((λ _, 0) <$> l) = 0.
Proof.
  unfold sum_list. induction l as [|j l IH]; csimpl; [done|]. by rewrite IH, Qcplus_0_l.
Qed.

Lemma fmap_lookup_seq (r : list Qc) :
  (λ j, default 0 (r !! j)) <$> seq 0 (length r) = r.
Proof.
  apply list_eq. intros i. rewrite list_lookup_fmap.
  destruct (r !! i) as [x|] eqn:Hi.
  - rewrite lookup_seq_lt by (by eapply lookup_lt_Some). simpl. by rewrite Hi.
  - rewrite lookup_seq_ge; [done|]. by apply lookup_ge_None.
Qed.

(** Adding up a rectangular array by columns or by rows gives the same. *)
Lemma sum_columns_rows (L : nat) (rows : list (list Qc)) :
  Forall (λ r, length r = L) rows →
  sum_list ((λ j, sum_list (column j rows)) <$> seq 0 L) = sum_list (sum_list <$> rows).
Proof.
  induction 1 as [|r rows Hr _ IH].
  - apply sum_list_fmap_zero.
  - unfold column in *. csimpl.
    change (λ j, sum_list (default 0 (r !! j) :: ((λ r0 : list Qc, default 0 (r0 !! j)) <$> rows)))
      with (λ j, default 0 (r !! j) + sum_list ((λ r0 : list Qc, default 0 (r0 !! j)) <$> rows)).
    rewrite (sum_list_fmap_plus (λ j, default 0 (r !! j))), IH.
    rewrite <- Hr, fmap_lookup_seq. done.
Qed.

Lemma np_mean_axis0_sum (rows : list (list Qc)) (m : list Qc) :
  np_mean_axis0 rows = Ok m →
  sum_list m = sum_list (sum_list <$> rows) / Qc_of_nat (length rows).
Proof.
  destruct rows as [|r rows]; [done|]. unfold np_mean_axis0.
  case_bool_decide as Hall; [|done]. intros [= <-].
  unfold Qcdiv. rewrite (sum_list_fmap_mult (λ j, sum_list (column j (r :: rows)))).
  by rewrite (sum_columns_rows (length r)).
Qed.

Lemma sum_list_constant_rows (s : Qc) (rows : list (list Qc)) :
  Forall (λ r, sum_list r = s) rows →
  sum_list (sum_list <$> rows) = Qc_of_nat (length rows) * s.
Proof.
  induction 1 as [|r rows Hr _ IH].
  - cbn. by rewrite Qc_of_nat_0, Qcmult_0_l.
  - csimpl. change (sum_list (sum_list r :: (sum_list <$> rows)))
      with (sum_list r + sum_list (sum_list <$> rows)).
    rewrite IH, Hr, Qc_of_nat_S. ring.
Qed.

Lemma np_mean_axis0_sum_constant (s : Qc) (rows : list (list Qc)) (m : list Qc) :
  Forall (λ r, sum_list r = s) rows → np_mean_axis0 rows = Ok m → sum_list m = s.
Proof.
  intros Hrows Hm. rewrite (np_mean_axis0_sum rows m Hm), (sum_list_constant_rows s) by done.
  rewrite Qcmult_comm. apply Qcdiv_mult_l.
  apply not_eq_sym, Qclt_not_eq, Qc_of_nat_pos.
  destruct rows; [done | simpl; lia].
Qed.

Lemma sums_to_check_sound (s : Qc) (D : list document) :
  sums_to_check s D = true → sums_to s D.
Proof.
  intros Hcheck d items Hd Hitems.
  unfold sums_to_check in Hcheck. rewrite forallb_forall in Hcheck.
  specialize (Hcheck d (proj1 (list_elem_of_In _ _) Hd)). rewrite Hitems in Hcheck.
  by apply bool_decide_eq_true in Hcheck.
Qed.

(** X4. In exact arithmetic the reducers keep the total: when the
    stored probabilities of every record add up to [s], so do the
    components of every per-year and per-journal cumulative
    distribution, and those of every per-dominant-topic cumulative
    distribution add up to [100 s]. The statement is about the means
    as rationals; numpy computes them in binary64, where the totals
    agree only up to rounding. *)
Theorem cumulative_distributions_sum (s : Qc) (D : list document) :
  sums_to s D →
  (∀ c k v, plot_topics_over_time D = Ok c → c !! k = Some v → sum_list v = s) ∧
  (∀ c k v, plot_topics_in_journals D = Ok c → c !! k = Some v → sum_list v = s) ∧
  (∀ c k v, dominant_id_to_cum_topics_of D = Ok c → c !! k = Some v →
     sum_list v = s * Qc_of_Z 100).
Proof.
  intros HD.
  assert (∀ d items vec, d ∈ D → topics d = Present items →
            sorted_topic_values items = Ok vec → sum_list vec = s) as Hvec.
  { intros d items vec Hd Hitems Hv%sorted_topic_values_Permutation.
    rewrite (sum_list_Permutation _ _ Hv). by apply (HD d). }
  split; [|split]; intros c k v Hc Hv.
  - rewrite plot_topics_over_time_group_reduce in Hc.
    apply (group_reduce_bounds year_contribution np_mean_axis0 (λ vec, sum_list vec = s) (λ vec, sum_list vec = s)
             D c) with (k := k); [| |exact Hc|exact Hv].
    + intros d k' vec Hd (items & Hi & Hvec' & _)%year_contribution_Ok. by eapply Hvec.
    + intros rows m. by apply np_mean_axis0_sum_constant.
  - rewrite plot_topics_in_journals_group_reduce in Hc.
    apply (group_reduce_bounds journal_contribution np_mean_axis0 (λ vec, sum_list vec = s) (λ vec, sum_list vec = s)
             D c) with (k := k); [| |exact Hc|exact Hv].
    + intros d k' vec Hd (items & Hi & Hvec' & _)%journal_contribution_Ok. by eapply Hvec.
    + intros rows m. by apply np_mean_axis0_sum_constant.
  - rewrite dominant_id_to_cum_topics_of_group_reduce in Hc.
    apply (group_reduce_bounds dominant_contribution mean_percent (λ vec, sum_list vec = s)
             (λ vec, sum_list vec = s * Qc_of_Z 100) D c) with (k := k); [| |exact Hc|exact Hv].
    + intros d k' vec Hd (items & Hi & Hvec' & _)%dominant_contribution_Ok. by eapply Hvec.
    + intros rows m Hrows (m1 & Hm1 & [= <-])%bind_Ok.
      rewrite (sum_list_fmap_mult id), list_fmap_id.
      by rewrite (np_mean_axis0_sum_constant s rows m1).
Qed.

Lemma cumulative_distributions_sum_witness :
  sum_list [frac 3 8; frac 5 8] = 1.
Proof.
  destruct (cumulative_distributions_sum 1 [doc_a; doc_b; doc_c]) as [Hyear _].
  { apply sums_to_check_sound. vm_compute. reflexivity. }
  apply (Hyear {[ 2000%Z := [frac 3 8; frac 5 8]; 2001%Z := [frac 1 5; frac 4 5] ]} 2000%Z).
  - by_evaluation.
  - by_evaluation.
Defined.

(** ** When the per-year summary can be computed *)

Lemma np_mean_axis0_succeeds (rows : list (list Qc)) :
  succeeds (np_mean_axis0 rows) ↔
  rows ≠ [] ∧ ∀ r1 r2, r1 ∈ rows → r2 ∈ rows → length r1 = length r2.
Proof.
  destruct rows as [|r rows].
  - split; [by intros [? [=]] | by intros [? _]].
  - unfold np_mean_axis0. case_bool_decide as Hall.
    + split; [|intros _; by eexists]. intros _. split; [done|].
      intros r1 r2 Hr1 Hr2. rewrite Forall_forall in Hall.
      by rewrite (Hall r1 Hr1), (Hall r2 Hr2).
    + split; [by intros [? [=]]|]. intros [_ Hsame]. destruct Hall.
      apply Forall_forall. intros r' Hr'. apply Hsame; [done | left].
Qed.

Lemma reduce_buckets_succeeds `{Countable K} (f : list (list Qc) → result (list Qc))
    (m : gmap K (list (list Qc))) :
  succeeds (reduce_buckets f m) ↔ ∀ k v, m !! k = Some v → succeeds (f v).
Proof.
  split.
  - intros [c Hc] k v Hk. pose proof (proj1 (reduce_buckets_lookup f m c) Hc k) as Hrel.
    rewrite Hk in Hrel. inversion Hrel. by eexists.
  - intros Hall. apply reduce_list_succeeds, Forall_forall.
    intros [k v] Hin%elem_of_map_to_list. by apply (Hall k).
Qed.

Lemma sorted_topic_values_length (items : topic_items) (v : list Qc) :
  sorted_topic_values items = Ok v → length v = length items.
Proof.
  intros Hv%sorted_topic_values_Permutation. by rewrite Hv, length_fmap.
Qed.

Lemma Forall2_elem_of_l {A B} (R : A → B → Prop) (l : list A) (k : list B) (x : A) :
  Forall2 R l k → x ∈ l → ∃ y, (x, y) ∈ zip l k ∧ R x y.
Proof.
  induction 1 as [|x' y l k Hxy _ IH]; intros Hin.
  - by apply elem_of_nil in Hin.
  - apply elem_of_cons in Hin as [->|Hin].
    + exists y. split; [left | done].
    + destruct (IH Hin) as (y' & Hy' & HR). exists y'. split; [by right | done].
Qed.

Lemma elem_of_zip_Forall2 {A B} (R : A → B → Prop) (l : list A) (k : list B) (x : A) (y : B) :
  Forall2 R l k → (x, y) ∈ zip l k → x ∈ l ∧ R x y.
Proof.
  induction 1 as [|x' y' l k Hxy _ IH]; intros Hin.
  - by apply elem_of_nil in Hin.
  - apply elem_of_cons in Hin as [[= -> ->]|Hin].
    + split; [left | done].
    + destruct (IH Hin) as [Hx HR]. split; [by right | done].
Qed.

(** X5. The per-year summary is computed exactly when every record
    has a topic mapping with integer literals for keys and the records
    of one year all store the same number of topics; otherwise
    [plot_topics_over_time] raises. *)
Theorem plot_topics_over_time_succeeds (D : list document) :
  succeeds (plot_topics_over_time D) ↔
  Forall readable D ∧
  ∀ d1 d2, d1 ∈ D → d2 ∈ D → year d1 = year d2 → topic_count d1 = topic_count d2.
Proof.
  rewrite plot_topics_over_time_group_reduce. unfold group_reduce.
  assert (∀ rs vs,
    Forall2 (λ d v, ∃ items, topics d = Present items
                     ∧ sorted_topic_values items = Ok v) D vs →
    omap id rs = (λ dv, (year dv.1, dv.2)) <$> zip D vs →
    (succeeds (reduce_buckets np_mean_axis0
        (foldl add_to_bucket (∅ : gmap Z (list (list Qc))) (omap id rs)))
     ↔ ∀ d1 d2, d1 ∈ D → d2 ∈ D → year d1 = year d2 → topic_count d1 = topic_count d2))
    as Hreduce.
  { intros rs vs Hvs Heq. rewrite reduce_buckets_succeeds.
    assert (∀ d v, (d, v) ∈ zip D vs → d ∈ D ∧ length v = topic_count d) as Hzip.
    { intros d v Hin. destruct (elem_of_zip_Forall2 _ _ _ _ _ Hvs Hin)
        as [Hd (items & Hitems & Hv)].
      split; [done|]. unfold topic_count. rewrite Hitems.
      by apply sorted_topic_values_length. }
    split.
    - intros Hall d1 d2 Hd1 Hd2 Hyear.
      destruct (Forall2_elem_of_l _ _ _ _ Hvs Hd1) as (v1 & Hv1 & _).
      destruct (Forall2_elem_of_l _ _ _ _ Hvs Hd2) as (v2 & Hv2 & _).
      rewrite <- (proj2 (Hzip d1 v1 Hv1)), <- (proj2 (Hzip d2 v2 Hv2)).
      set (b := bucket (year d1) (omap id rs)).
      assert (v1 ∈ b ∧ v2 ∈ b) as [Hb1 Hb2].
      { unfold b. rewrite Heq, bucket_of_years. split.
        - apply list_elem_of_fmap. exists (d1, v1). split; [done|].
          by apply list_elem_of_filter.
        - apply list_elem_of_fmap. exists (d2, v2). split; [done|].
          by apply list_elem_of_filter. }
      destruct (proj1 (np_mean_axis0_succeeds b)) as [_ Hsame]; [|by apply Hsame].
      apply (Hall (year d1)). rewrite lookup_grouped. fold b.
      rewrite decide_False; [done|]. intros Hnil. rewrite Hnil in Hb1.
      by apply elem_of_nil in Hb1.
    - intros Hsame k b. rewrite lookup_grouped. case_decide as Hb; [done|].
      intros [= <-]. apply np_mean_axis0_succeeds. split; [done|].
      rewrite Heq, bucket_of_years. intros r1 r2
        ([d1 v1] & -> & [Hy1 Hin1]%list_elem_of_filter)%list_elem_of_fmap
        ([d2 v2] & -> & [Hy2 Hin2]%list_elem_of_filter)%list_elem_of_fmap.
      cbn [fst snd] in *.
      destruct (Hzip d1 v1 Hin1) as [Hd1 ->]. destruct (Hzip d2 v2 Hin2) as [Hd2 ->].
      apply Hsame; [done | done | congruence]. }
  destruct (mapM year_contribution D) as [rs|e] eqn:Hrs.
  - rewrite Ok_bind.
    destruct (year_contributions_vectors D rs (proj1 (mapM_Ok _ _ _) Hrs)) as (vs & Hvs & Heq).
    rewrite (Hreduce rs vs Hvs Heq).
    assert (Forall readable D) as Hread.
    { eapply Forall_impl;
        [apply (proj1 (mapM_succeeds year_contribution D)); by exists rs|].
      intros d. apply year_contribution_succeeds. }
    tauto.
  - rewrite Raise_bind. split; [by intros [? [=]]|]. intros [Hread _].
    assert (succeeds (mapM year_contribution D)) as [rs' Hrs'].
    { apply mapM_succeeds. eapply Forall_impl; [exact Hread|].
      apply readable_year_contribution. }
    congruence.
Qed.

Lemma plot_topics_over_time_succeeds_witness :
  Forall readable [doc_a; doc_b; doc_c] ∧ ¬ succeeds (plot_topics_over_time [doc_a; doc_one]).
Proof.
  split.
  - apply (proj1 (plot_topics_over_time_succeeds [doc_a; doc_b; doc_c])).
    exists {[ 2000%Z := [frac 3 8; frac 5 8]; 2001%Z := [frac 1 5; frac 4 5] ]}. by_evaluation.
  - intros [_ Hsame]%plot_topics_over_time_succeeds.
    specialize (Hsame doc_a doc_one). vm_compute in Hsame.
    assert (2 = 1)%nat as Habs; [|lia].
    apply Hsame; [left | right; left | done].
Defined.

(** ** The dominant topic leads its own column *)

Section group_reduce_keyed.
Context `{Countable K}.
Variable contribution : document → result (option (K * list Qc)).
Variable f : list (list Qc) → result (list Qc).

(** As [group_reduce_bounds], for properties that mention the group key. *)
Lemma group_reduce_keyed (P Q : K → list Qc → Prop) (D : list document)
    (c : gmap K (list Qc)) :
  (∀ d k vec, d ∈ D → contribution d = Ok (Some (k, vec)) → P k vec) →
  (∀ k rows m, Forall (P k) rows → f rows = Ok m → Q k m) →
  group_reduce contribution f D = Ok c →
  ∀ k v, c !! k = Some v → Q k v.
Proof.
  intros Hg Hf (rs & Hrs%mapM_Ok & Hc)%bind_Ok k v Hv.
  pose proof (proj1 (reduce_buckets_lookup _ _ _) Hc k) as Hk.
  rewrite Hv, lookup_grouped in Hk. case_decide; inversion Hk as [rows y Hy|]; simplify_eq.
  apply (Hf k (bucket k (omap id rs)) v); [|done].
  apply Forall_forall. intros vec Hvec%elem_of_bucket.
  apply list_elem_of_omap in Hvec as (r & Hr & Hsome). simpl in Hsome. subst r.
  destruct (Forall2_elem_of_r _ _ _ _ Hrs Hr) as (d & Hd & Hgd).
  by apply (Hg d k vec).
Qed.
End group_reduce_keyed.

Lemma sum_list_fmap_le {A} (a b : A → Qc) (l : list A) :
  (∀ x, x ∈ l → a x ≤ b x) → sum_list (a <$> l) ≤ sum_list (b <$> l).
Proof.
  unfold sum_list. induction l as [|x l IH]; intros Hle; csimpl; [apply Qcle_refl|].
  apply Qcplus_le_compat.
  - apply Hle. left.
  - apply IH. intros y Hy. apply Hle. by right.
Qed.

Lemma Qcdiv_le_mono (x y n : Qc) : 0 < n → x ≤ y → x / n ≤ y / n.
Proof.
  intros Hn Hxy.
  assert (∀ s, s / n * n = s) as Hdiv.
  { intros s. rewrite Qcmult_comm. apply Qcmult_div_r. by apply not_eq_sym, Qclt_not_eq. }
  apply (Qcmult_le_mono_pos_r _ _ n Hn). by rewrite !Hdiv.
Qed.

(** The mean of rows that all peak at position [k] peaks at [k]. *)
Lemma np_mean_axis0_peak (k : nat) (rows : list (list Qc)) (m : list Qc) :
  Forall (λ r, ∃ p, r !! k = Some p ∧ ∀ x, x ∈ r → x ≤ p) rows →
  np_mean_axis0 rows = Ok m →
  ∃ p, m !! k = Some p ∧ ∀ x, x ∈ m → x ≤ p.
Proof.
  intros Hrows Hm. destruct rows as [|r rows]; [done|].
  unfold np_mean_axis0 in Hm. case_bool_decide as Hall; [|done]. injection Hm as <-.
  set (n := Qc_of_nat (length (r :: rows))).
  assert (0 < n) as Hn by (apply Qc_of_nat_pos; simpl; lia).
  assert (k < length r)%nat as Hk.
  { apply Forall_cons in Hrows as [(p & Hp & _) _]. by eapply lookup_lt_Some. }
  exists (sum_list (column k (r :: rows)) / n). split.
  - rewrite list_lookup_fmap, lookup_seq_lt by done. done.
  - intros x (j & -> & Hj%elem_of_seq)%list_elem_of_fmap.
    apply Qcdiv_le_mono; [done|].
    apply (sum_list_fmap_le (λ r0 : list Qc, default 0 (r0 !! j))
             (λ r0 : list Qc, default 0 (r0 !! k)) (r :: rows)).
    intros r' Hr'.
    destruct (proj1 (Forall_forall _ _) Hrows r' Hr') as (p & Hp & Hmax).
    rewrite Hp. simpl.
    destruct (r' !! j) as [y|] eqn:Hy; simpl.
    + apply Hmax. by eapply list_elem_of_lookup_2.
    + apply lookup_ge_None in Hy.
      rewrite (proj1 (Forall_forall _ _) Hall r' Hr') in Hy. lia.
Qed.

(** X6. In every per-dominant-topic cumulative distribution the
    dominant topic leads: the vector stored under topic [k] has a
    component at position [k], and no component of the vector exceeds
    it. This is the value that the co-occurrence view then sets to
    zero. *)
Theorem dominant_topic_leads_its_column (D : list document) (c : gmap nat (list Qc))
    (k : nat) (v : list Qc) :
  dominant_id_to_cum_topics_of D = Ok c → c !! k = Some v →
  ∃ p, v !! k = Some p ∧ ∀ x, x ∈ v → x ≤ p.
Proof.
  rewrite dominant_id_to_cum_topics_of_group_reduce. intros Hc Hv.
  apply (group_reduce_keyed dominant_contribution mean_percent
           (λ k vec, ∃ p, vec !! k = Some p ∧ ∀ x, x ∈ vec → x ≤ p)
           (λ k vec, ∃ p, vec !! k = Some p ∧ ∀ x, x ∈ vec → x ≤ p) D c)
    with (k := k); [| |exact Hc|exact Hv].
  - intros d k' vec _ (items & _ & _ & Hmax)%dominant_contribution_Ok.
    apply max_topic_id_of_Ok in Hmax as (p & Hp & Hle & _). by exists p.
  - intros k' rows m Hrows (m1 & Hm1 & [= <-])%bind_Ok.
    destruct (np_mean_axis0_peak k' rows m1 Hrows Hm1) as (p & Hp & Hle).
    exists (p * Qc_of_Z 100). split.
    + by rewrite list_lookup_fmap, Hp.
    + intros x (y & -> & Hy)%list_elem_of_fmap.
      apply Qcmult_le_compat_r; [by apply Hle|]. by_evaluation.
Qed.

Lemma dominant_topic_leads_its_column_witness :
  dominant_id_to_cum_topics_of [doc_a; doc_b; doc_c]
    = Ok {[ 0%nat := [frac 50 1; frac 50 1]; 1%nat := [frac 45 2; frac 155 2] ]} ∧
  ∃ p, [frac 45 2; frac 155 2] !! 1%nat = Some p ∧ ∀ x, x ∈ [frac 45 2; frac 155 2] → x ≤ p.
Proof.
  split; [by_evaluation|].
  apply (dominant_topic_leads_its_column [doc_a; doc_b; doc_c]
           {[ 0%nat := [frac 50 1; frac 50 1]; 1%nat := [frac 45 2; frac 155 2] ]}).
  - by_evaluation.
  - by_evaluation.
Defined.

(** ** Running the inference again *)

Lemma mapM_app {A B} (f : A → result B) (l1 l2 : list A) :
  mapM f (l1 ++ l2) = mapM f l1 ≫= λ k1, mapM f l2 ≫= λ k2, mret (k1 ++ k2).
Proof.
  induction l1 as [|x l1 IH].
  - rewrite app_nil_l. change (mapM f []) with (Ok (@nil B)). rewrite Ok_bind.
    by destruct (mapM f l2).
  - rewrite <- app_comm_cons, !mapM_cons, IH.
    destruct (f x) as [y|e]; [|done]. rewrite !Ok_bind.
    destruct (mapM f l1) as [k1|e]; [|done]. rewrite !Ok_bind.
    destruct (mapM f l2) as [k2|e]; [|done]. by rewrite !Ok_bind.
Qed.

Lemma mapM_double {A B} (f : A → result B) (l : list A) :
  mapM f (l ++ l) = mapM f l ≫= λ k, mret (k ++ k).
Proof.
  rewrite mapM_app. destruct (mapM f l) as [k|e]; [|done]. by rewrite !Ok_bind.
Qed.

Lemma bucket_app `{Countable K} {V} (k : K) (l1 l2 : list (K * V)) :
  bucket k (l1 ++ l2) = bucket k l1 ++ bucket k l2.
Proof. unfold bucket. by rewrite filter_app, fmap_app. Qed.

Lemma Qc_of_nat_add (n m : nat) : Qc_of_nat (n + m) = Qc_of_nat n + Qc_of_nat m.
Proof. unfold Qc_of_nat. by rewrite Nat2Z.inj_add, Z2Qc_inj_add. Qed.

Lemma Qcdiv_double (s n : Qc) : n ≠ 0 → (s + s) / (n + n) = s / n.
Proof.
  intros Hn. field. split; [done|]. intros H2.
  replace (n + n) with (n * (1 + 1)) in H2 by ring.
  assert (1 + 1 ≠ 0) as Htwo by by_evaluation.
  by apply Qcmult_integral in H2 as [?|?].
Qed.

Lemma np_mean_axis0_double (rows : list (list Qc)) :
  np_mean_axis0 (rows ++ rows) = np_mean_axis0 rows.
Proof.
  destruct rows as [|r rows]; [done|].
  rewrite <- app_comm_cons. unfold np_mean_axis0.
  rewrite app_comm_cons.
  assert (Forall (λ r', length r' = length r) ((r :: rows) ++ r :: rows)
          ↔ Forall (λ r', length r' = length r) (r :: rows)) as Hall.
  { rewrite Forall_app. tauto. }
  rewrite (bool_decide_ext _ _ Hall). case_bool_decide; [|done]. f_equal.
  apply list_fmap_ext. intros _ j _.
  unfold column. rewrite fmap_app, sum_list_app, length_app, Qc_of_nat_add.
  apply Qcdiv_double, not_eq_sym, Qclt_not_eq, Qc_of_nat_pos. simpl. lia.
Qed.

Lemma mean_percent_double (rows : list (list Qc)) :
  mean_percent (rows ++ rows) = mean_percent rows.
Proof. unfold mean_percent. by rewrite np_mean_axis0_double. Qed.

Section group_reduce_double.
Context `{Countable K}.
Variable contribution : document → result (option (K * list Qc)).
Variable f : list (list Qc) → result (list Qc).
Hypothesis f_double : ∀ rows, f (rows ++ rows) = f rows.

Lemma group_reduce_double (D : list document) (c : gmap K (list Qc)) :
  group_reduce contribution f (D ++ D) = Ok c ↔ group_reduce contribution f D = Ok c.
Proof.
  unfold group_reduce. rewrite mapM_double.
  destruct (mapM contribution D) as [rs|e]; [|done].
  rewrite !Ok_bind. rewrite !reduce_buckets_lookup.
  assert (∀ k,
    foldl add_to_bucket (∅ : gmap K (list (list Qc))) (omap id (rs ++ rs)) !! k
    = (λ b, b ++ b) <$> foldl add_to_bucket (∅ : gmap K (list (list Qc))) (omap id rs) !! k)
    as Hlookup.
  { intros k. rewrite !lookup_grouped, omap_app, bucket_app.
    destruct (bucket k (omap id rs)) as [|v b]; [done|]. by rewrite !decide_False. }
  split; intros Hrel k; specialize (Hrel k); rewrite Hlookup in *.
  - destruct (foldl add_to_bucket ∅ (omap id rs) !! k) as [b|]; csimpl in *;
      inversion Hrel as [? y Hy|]; constructor. by rewrite <- f_double.
  - destruct (foldl add_to_bucket ∅ (omap id rs) !! k) as [b|]; csimpl in *;
      inversion Hrel as [? y Hy|]; constructor. by rewrite f_double.
Qed.
End group_reduce_double.

Lemma same_shape_of_equal `{Countable K} (r2 r1 : result (gmap K (list Qc))) :
  (∀ c, r2 = Ok c ↔ r1 = Ok c) → same_shape r2 r1.
Proof.
  intros Heq. split.
  - split; intros [c Hc]; exists c; by apply Heq.
  - intros c2 c1 H2%Heq H1. assert (c2 = c1) as -> by congruence.
    split; [done|]. intros k v2 v1 Hv2 Hv1. congruence.
Qed.

(** X7. The inference pass does not look at what the derived
    collection already holds: a second run appends the same records
    once more. Started on an empty derived collection, the titles
    table after the second run lists every row twice, and each of the
    three summaries comes about after the second run exactly when it
    does after the first, with the same keys and vectors of the same
    lengths. *)
Theorem inference_rerun (get_document_topics : list string → list (Z * Qc)) (db : store) :
  let once := infer_document_topic_distribution get_document_topics db in
  let twice := infer_document_topic_distribution get_document_topics once in
  publications_raw twice = publications_raw db ∧
  publications twice
    = publications once ++ omap (derived_record get_document_topics) (publications_raw db) ∧
  (publications db = [] →
   publications twice = publications once ++ publications once ∧
   get_document_title_per_topic (publications twice)
     = (get_document_title_per_topic (publications once) ≫= λ rows, mret (rows ++ rows)) ∧
   same_shape (plot_topics_over_time (publications twice))
              (plot_topics_over_time (publications once)) ∧
   same_shape (plot_topics_in_journals (publications twice))
              (plot_topics_in_journals (publications once)) ∧
   same_shape (dominant_id_to_cum_topics_of (publications twice))
              (dominant_id_to_cum_topics_of (publications once))).
Proof.
  intros once twice. unfold twice, once, infer_document_topic_distribution.
  rewrite !infer_loop. cbn [publications publications_raw read_collection].
  rewrite ?infer_loop. cbn [publications publications_raw read_collection].
  split; [done|]. split; [done|]. intros ->. rewrite !app_nil_l.
  set (D := omap (derived_record get_document_topics) (publications_raw db)).
  split; [done|]. split; [|split; [|split]].
  - rewrite !get_document_title_per_topic_mapM. apply mapM_double.
  - apply same_shape_of_equal. intros c. rewrite !plot_topics_over_time_group_reduce.
    apply group_reduce_double, np_mean_axis0_double.
  - apply same_shape_of_equal. intros c. rewrite !plot_topics_in_journals_group_reduce.
    apply group_reduce_double, np_mean_axis0_double.
  - apply same_shape_of_equal. intros c. rewrite !dominant_id_to_cum_topics_of_group_reduce.
    apply group_reduce_double, mean_percent_double.
Qed.

Lemma inference_rerun_witness :
  get_document_title_per_topic
    (publications (infer_document_topic_distribution two_topics
       (infer_document_topic_distribution two_topics
          (Store [raw_with_tokens; raw_without_tokens] []))))
  = Ok [TitleRow 2018 "Narrow lenses" "Fish and Fisheries" "3" (frac 3 4);
        TitleRow 2018 "Narrow lenses" "Fish and Fisheries" "3" (frac 3 4)] ∧
  succeeds (plot_topics_over_time
    (publications (infer_document_topic_distribution two_topics
       (infer_document_topic_distribution two_topics
          (Store [raw_with_tokens; raw_without_tokens] []))))).
Proof.
  destruct (inference_rerun two_topics (Store [raw_with_tokens; raw_without_tokens] []))
    as (_ & _ & Hsame).
  destruct (Hsame eq_refl) as (_ & Htitles & [Hyear _] & _).
  split.
  - rewrite Htitles.
    assert (get_document_title_per_topic
              (publications (infer_document_topic_distribution two_topics
                 (Store [raw_with_tokens; raw_without_tokens] [])))
            = Ok [TitleRow 2018 "Narrow lenses" "Fish and Fisheries" "3" (frac 3 4)])
      as -> by by_evaluation.
    reflexivity.
  - apply Hyear. exists {[ 2018%Z := [frac 1 4; frac 3 4] ]}. by_evaluation.
Defined.

(** ** The two selections of a dominant topic *)

(** X8. When the largest probability of a record is stored under one
    key only, the titles table and the co-occurrence view select the
    same topic: the position chosen by the co-occurrence view is the
    place of the titles table's key in ascending id order, and when
    the ids present are exactly [0 .. K-1] that key is the decimal
    notation of the position. *)
Theorem dominant_selections_agree (d : document) (items : topic_items) (ids : list Z)
    (key : string) (p : Qc) (i : nat) (vec : list Qc) :
  topics d = Present items → has_ids items ids →
  dominant_topic d = Ok (key, p) →
  dominant_contribution d = Ok (Some (i, vec)) →
  (∀ key', (key', p) ∈ items → key' = key) →
  vec !! i = Some p ∧
  (∃ sorted, sorted_by_int_key items = Ok sorted ∧ sorted !! i = Some (key, p)) ∧
  ∀ K : nat, ids ≡ₚ seqZ 0 (Z.of_nat K) → parse_int key = Some (Z.of_nat i).
Proof.
  intros Hd Hids Htitle Hco Hunique.
  rewrite (dominant_topic_Present d items Hd) in Htitle.
  apply dominant_contribution_Ok in Hco as (items' & Hd' & Hvec & Hi).
  assert (items' = items) as -> by congruence.
  set (keyed := sort_by_key (zip ids items)).
  assert (vec = keyed.*2.*2) as ->.
  { unfold sorted_topic_values in Hvec.
    rewrite (sorted_by_int_key_has_ids _ ids Hids), Ok_bind in Hvec. by injection Hvec. }
  assert (keyed.*2 ≡ₚ items) as Hperm.
  { unfold keyed. rewrite sort_by_key_Permutation, snd_zip; [done|].
    by rewrite (Forall2_length _ _ _ Hids). }
  apply max_topic_id_of_Ok in Hi as (m & Him & Hmax & _).
  rewrite !list_lookup_fmap in Him.
  destruct (keyed !! i) as [[z [key' m']]|] eqn:Hki; [|done].
  injection Him as <-. cbn [fst snd] in *.
  assert ((key', m') ∈ items) as Hin.
  { rewrite <- Hperm. apply list_elem_of_fmap. exists (z, (key', m')).
    split; [done|]. by eapply list_elem_of_lookup_2. }
  assert (m' = p) as ->.
  { apply Qcle_antisym.
    - apply (py_max_upper_bound snd items (key, p) (key', m') Htitle Hin).
    - apply Hmax. rewrite Hperm. apply list_elem_of_fmap. exists (key, p).
      split; [done|]. by apply (py_max_elem_of snd). }
  assert (key' = key) as -> by (by apply Hunique).
  split; [|split].
  - by rewrite !list_lookup_fmap, Hki.
  - exists keyed.*2. split; [by apply sorted_by_int_key_has_ids|].
    by rewrite list_lookup_fmap, Hki.
  - intros K HK.
    assert (Forall (λ kx, parse_int kx.2.1 = Some kx.1) keyed) as Hparse.
    { unfold keyed. rewrite sort_by_key_Permutation. by apply has_ids_zip. }
    assert (parse_int key = Some z) as ->.
    { apply (proj1 (Forall_forall _ _) Hparse (z, (key, p))).
      by eapply list_elem_of_lookup_2. }
    assert (keyed.*1 = seqZ 0 (Z.of_nat K)) as Hkeys.
    { apply sorted_keys_complete. rewrite fst_zip; [done|].
      rewrite (Forall2_length _ _ _ Hids). lia. }
    assert (keyed.*1 !! i = Some z) as Hz by (by rewrite list_lookup_fmap, Hki).
    rewrite Hkeys in Hz. apply lookup_seqZ in Hz as [-> _]. f_equal; lia.
Qed.

Lemma dominant_selections_agree_witness :
  dominant_topic doc_b = Ok ("1", frac 3 4) ∧
  dominant_contribution doc_b = Ok (Some (1%nat, [frac 1 4; frac 3 4])) ∧
  parse_int "1" = Some (Z.of_nat 1).
Proof.
  split; [by_evaluation|]. split; [by_evaluation|].
  destruct (dominant_selections_agree doc_b [("1", frac 3 4); ("0", frac 1 4)] [1; 0]%Z
              "1" (frac 3 4) 1%nat [frac 1 4; frac 3 4]) as (_ & _ & Hkey).
  - reflexivity.
  - repeat constructor.
  - by_evaluation.
  - by_evaluation.
  - intros key' [Hin|Hin%list_elem_of_singleton]%elem_of_cons; [congruence|].
    exfalso. injection Hin as _ Hp. revert Hp. by_evaluation.
  - apply (Hkey 2%nat). apply Permutation_swap.
Defined.

(** ** The column of row maxima *)

Section max_column.
Variable get_topic_label : nat → string.
Variable n : nat.
Variable cum : gmap nat (list Qc).

Hypothesis labels_NoDup : NoDup (get_topic_label <$> seq 0 n).
Hypothesis labels_not_max : "max" ∉ get_topic_label <$> seq 0 n.
Hypothesis cum_rows : common_length (map_to_list cum).*2 = Ok n.
Hypothesis cum_keys : dom cum ⊆ set_seq 0 n.

Local Abbreviation frame_at := (frame_at get_topic_label n cum).

(** Row [i] as the loop reads it: no earlier iteration has written to it. *)
Lemma row_values_frame_at (i : nat) (maxcol : list Qc) :
  (i < n)%nat → maxcol !! i = Some 0 →
  row_values i (frame_at i maxcol) = column i (map_to_list cum).*2 ++ [0].
Proof.
  intros Hi Hmax. unfold row_values, frame_at, suppressed_columns, column.
  cbn [df_columns]. rewrite fmap_app. f_equal.
  - rewrite <- !list_fmap_compose. apply list_fmap_ext.
    intros _ [k v] _. cbn [compose fst snd]. case_decide as Hk; [|done].
    rewrite list_lookup_insert_ne; [done | lia].
  - cbn [fmap list_fmap snd]. by rewrite Hmax.
Qed.

Lemma suppress_loop_maxcol (b a : nat) (maxcol : list Qc) (df : DataFrame) :
  (a + b ≤ n)%nat → length maxcol = n →
  (∀ i, (a ≤ i < n)%nat → maxcol !! i = Some 0) →
  for_each suppress_row (frame_at a maxcol)
    ((λ i, (i, get_topic_label i)) <$> seq a b) = Ok df →
  ∃ maxcol', df = frame_at (a + b) maxcol' ∧ length maxcol' = n ∧
    (∀ i, (i < a ∨ a + b ≤ i)%nat → maxcol' !! i = maxcol !! i) ∧
    ∀ i, (a ≤ i < a + b)%nat →
      ∃ m, maxcol' !! i = Some m ∧ py_max id (column i (map_to_list cum).*2 ++ [0]) = Ok m.
Proof.
  revert a maxcol. induction b as [|b IH]; intros a maxcol Hab Hlen Hzero Hloop.
  - injection Hloop as <-. exists maxcol. rewrite Nat.add_0_r.
    split; [done|]. split; [done|]. split; [done|]. intros i Hi. lia.
  - cbn [seq fmap list_fmap] in Hloop. rewrite for_each_cons in Hloop.
    destruct (cum !! a) as [va|] eqn:Ha.
    2:{ rewrite (suppress_row_missing get_topic_label n cum) in Hloop
          by (done || lia). done. }
    assert (suppress_row (frame_at a maxcol) (a, get_topic_label a)
            = py_max id (column a (map_to_list cum).*2 ++ [0]) ≫= λ m,
                Ok (frame_at (S a) (<[a := m]> maxcol))) as Hstep.
    { unfold suppress_row. cbn [fst snd].
      rewrite row_values_frame_at by (lia || (apply Hzero; lia)).
      destruct (py_max id (column a (map_to_list cum).*2 ++ [0])) as [m|e]; [|done].
      rewrite !Ok_bind.
      rewrite (set_cell_max get_topic_label n cum) by (done || lia).
      rewrite Ok_bind. apply (set_cell_diagonal get_topic_label n cum); (done || lia || by eexists). }
    rewrite Hstep in Hloop.
    destruct (py_max id (column a (map_to_list cum).*2 ++ [0])) as [m|e] eqn:Hm; [|done].
    rewrite !Ok_bind in Hloop.
    destruct (IH (S a) (<[a := m]> maxcol)) as (maxcol' & -> & Hlen' & Hsame & Hnew);
      [lia | by rewrite length_insert | | exact Hloop |].
    { intros i Hi. rewrite list_lookup_insert_ne by lia. apply Hzero. lia. }
    exists maxcol'. split; [f_equal; lia|]. split; [done|]. split.
    + intros i Hi. rewrite Hsame by lia. apply list_lookup_insert_ne. lia.
    + intros i Hi. destruct (decide (i = a)) as [->|Hne].
      * exists m. split; [|done]. rewrite Hsame by lia.
        apply list_lookup_insert_eq. lia.
      * apply Hnew. lia.
Qed.

Lemma get_max_column_frame_at (maxcol : list Qc) :
  get_column "max" (frame_at n maxcol) = Some maxcol.
Proof.
  unfold get_column, frame_at. cbn [df_columns]. apply assoc_get_NoDup.
  - rewrite fmap_app. apply NoDup_app.
    split; [by apply (suppressed_columns_NoDup get_topic_label n cum)|].
    split; [|apply NoDup_singleton].
    intros label Hlabel ->%list_elem_of_singleton.
    by apply (suppressed_columns_not_max get_topic_label n cum labels_not_max cum_keys n).
  - apply elem_of_app. right. left.
Qed.

Lemma self_suppress_max_column (df : DataFrame) :
  self_suppress get_topic_label cum = Ok df →
  ∃ maxcol, get_column "max" df = Some maxcol ∧ length maxcol = n ∧
    ∀ i, (i < n)%nat →
      ∃ m, maxcol !! i = Some m ∧ py_max id (column i (map_to_list cum).*2 ++ [0]) = Ok m.
Proof.
  rewrite (self_suppress_loop get_topic_label n cum) by done. intros Hloop.
  destruct (suppress_loop_maxcol n 0 (replicate n 0) df)
    as (maxcol & -> & Hlen & _ & Hnew); [lia | by rewrite length_replicate | | done |].
  { intros i Hi. apply lookup_replicate_2. lia. }
  exists maxcol. split; [apply get_max_column_frame_at|]. split; [done|].
  intros i Hi. apply Hnew. lia.
Qed.
End max_column.

(** X9. When the suppression loop of the co-occurrence view returns,
    the column [max] it leaves in the frame holds, for every row, the
    largest value of that row as it was before the loop wrote to it:
    no value of the row exceeds it, the self co-occurrence included,
    and it is one of the values of the row, or the 0 the column [max]
    itself held. *)
Theorem max_column_holds_row_maxima (get_topic_label : nat → string) (n : nat)
    (cum : gmap nat (list Qc)) (df : DataFrame) :
  NoDup (get_topic_label <$> seq 0 n) →
  "max" ∉ get_topic_label <$> seq 0 n →
  common_length (map_to_list cum).*2 = Ok n →
  dom cum ⊆ set_seq 0 n →
  self_suppress get_topic_label cum = Ok df →
  ∃ maxcol, get_column "max" df = Some maxcol ∧ length maxcol = n ∧
    ∀ i, (i < n)%nat →
      ∃ m, maxcol !! i = Some m ∧ 0 ≤ m ∧
        (∀ k v x, cum !! k = Some v → v !! i = Some x → x ≤ m) ∧
        (m = 0 ∨ ∃ k v, cum !! k = Some v ∧ v !! i = Some m).
Proof.
  intros Hnd Hmax Hrows Hdom Hdf.
  destruct (self_suppress_max_column get_topic_label n cum Hnd Hmax Hrows Hdom df Hdf)
    as (maxcol & Hcol & Hlen & Hvals).
  exists maxcol. split; [done|]. split; [done|]. intros i Hi.
  destruct (Hvals i Hi) as (m & Hm & Hpy). exists m. split; [done|].
  split; [|split].
  - apply (py_max_upper_bound id _ m 0 Hpy). apply elem_of_app. right. left.
  - intros k v x Hk Hx.
    apply (py_max_upper_bound id _ m x Hpy). apply elem_of_app. left.
    unfold column. apply list_elem_of_fmap. exists v. rewrite Hx. split; [done|].
    apply list_elem_of_fmap. exists (k, v). split; [done|]. by apply elem_of_map_to_list.
  - apply (py_max_elem_of id) in Hpy.
    apply elem_of_app in Hpy as [Hin|Hin%list_elem_of_singleton]; [|by left].
    right. unfold column in Hin.
    apply list_elem_of_fmap in Hin as (v & -> & Hv).
    apply list_elem_of_fmap in Hv as ([k v'] & -> & Hkv%elem_of_map_to_list).
    cbn [snd]. exists k, v'. split; [done|].
    pose proof (cum_lengths get_topic_label n cum Hnd Hmax Hrows Hdom k v' Hkv) as Hv'.
    destruct (lookup_lt_is_Some_2 v' i) as [x Hx]; [lia|]. by rewrite Hx.
Qed.

Lemma max_column_holds_row_maxima_witness :
  ∃ maxcol,
    get_column "max"
      (Frame ["0"; "1"]
         [("1", [frac 25 1; 0]); ("0", [0; frac 50 1]); ("max", [frac 50 1; frac 75 1])])
      = Some maxcol ∧
    length maxcol = 2%nat ∧
    ∀ i, (i < 2)%nat →
      ∃ m, maxcol !! i = Some m ∧ 0 ≤ m ∧
        (∀ k v x, cum_two_topics !! k = Some v → v !! i = Some x → x ≤ m) ∧
        (m = 0 ∨ ∃ k v, cum_two_topics !! k = Some v ∧ v !! i = Some m).
Proof.
  apply (max_column_holds_row_maxima pretty 2 cum_two_topics); by_evaluation.
Defined.

(** ** Records without topics in the per-journal pass *)

Lemma journal_loop_filter (D : list document) (m : gmap string (list (list Qc))) :
  for_each (λ journal_to_topics d,
    match topics d with
    | Present items =>
        let journal_to_topics := ensure_key (journal d) journal_to_topics in
        topics ← sorted_topic_values items;
        mret (append_to (journal d) topics journal_to_topics)
    | _ => mret journal_to_topics
    end) m (filter (λ d, is_not_None (topics d)) D)
  = for_each (λ journal_to_topics d,
    match topics d with
    | Present items =>
        let journal_to_topics := ensure_key (journal d) journal_to_topics in
        topics ← sorted_topic_values items;
        mret (append_to (journal d) topics journal_to_topics)
    | _ => mret journal_to_topics
    end) m D.
Proof.
  revert m. induction D as [|d D IH]; intros m; [done|].
  rewrite filter_cons, (for_each_cons _ m d D). cbn beta.
  destruct (topics d) as [| |items] eqn:Hd; cbn beta iota; cbn [is_not_None].
  - rewrite decide_False by (by intros []). apply IH.
  - rewrite decide_False by (by intros []). apply IH.
  - rewrite decide_True by done. rewrite for_each_cons. cbn beta. rewrite Hd.
    cbn beta iota zeta. destruct (sorted_topic_values items) as [v|e]; [|done].
    apply IH.
Qed.

(** X10. The per-journal pass sees only the records that have a topic
    mapping: records whose mapping is missing or null can be removed
    from the collection without changing the buckets, the cumulative
    distributions, or the exception raised. *)
Theorem journal_pass_reads_records_with_topics (D : list document) :
  journal_to_topics_of D = journal_to_topics_of (filter (λ d, is_not_None (topics d)) D) ∧
  plot_topics_in_journals D
    = plot_topics_in_journals (filter (λ d, is_not_None (topics d)) D).
Proof.
  assert (journal_to_topics_of D
          = journal_to_topics_of (filter (λ d, is_not_None (topics d)) D)) as Heq.
  { unfold journal_to_topics_of. by rewrite journal_loop_filter. }
  split; [done|]. unfold plot_topics_in_journals. by rewrite <- Heq.
Qed.

(** ** What the co-occurrence view needs *)

Section group_reduce_members.
Context `{Countable K}.
Variable contribution : document → result (option (K * list Qc)).
Variable f : list (list Qc) → result (list Qc).

(** Every key of the result was contributed by a document. *)
Lemma group_reduce_key_origin (D : list document) (c : gmap K (list Qc)) (k : K)
    (v : list Qc) :
  group_reduce contribution f D = Ok c → c !! k = Some v →
  ∃ d vec, d ∈ D ∧ contribution d = Ok (Some (k, vec)).
Proof.
  intros (rs & Hrs%mapM_Ok & Hc)%bind_Ok Hv.
  pose proof (proj1 (reduce_buckets_lookup _ _ _) Hc k) as Hk.
  rewrite Hv, lookup_grouped in Hk. case_decide as Hb; inversion Hk; simplify_eq.
  destruct (bucket k (omap id rs)) as [|vec b] eqn:Hbucket; [done|].
  assert (vec ∈ bucket k (omap id rs)) as Hvec by (rewrite Hbucket; left).
  apply elem_of_bucket, list_elem_of_omap in Hvec as (r & Hr & Hsome).
  simpl in Hsome. subst r.
  destruct (Forall2_elem_of_r _ _ _ _ Hrs Hr) as (d & Hd & Hgd). by exists d, vec.
Qed.

(** Every contribution sits in the bucket that was reduced under its key. *)
Lemma group_reduce_member (D : list document) (c : gmap K (list Qc)) (d : document)
    (k : K) (vec : list Qc) :
  group_reduce contribution f D = Ok c → d ∈ D → contribution d = Ok (Some (k, vec)) →
  ∃ rows v, vec ∈ rows ∧ f rows = Ok v ∧ c !! k = Some v.
Proof.
  intros (rs & Hrs%mapM_Ok & Hc)%bind_Ok Hd Hcontrib.
  destruct (Forall2_elem_of_l _ _ _ _ Hrs Hd) as (r & Hr%elem_of_zip_r & Hdr).
  assert (r = Some (k, vec)) as -> by congruence.
  assert (vec ∈ bucket k (omap id rs)) as Hvec.
  { apply elem_of_bucket, list_elem_of_omap. by exists (Some (k, vec)). }
  pose proof (proj1 (reduce_buckets_lookup _ _ _) Hc k) as Hk.
  rewrite lookup_grouped in Hk. case_decide as Hb.
  { rewrite Hb in Hvec. by apply elem_of_nil in Hvec. }
  inversion Hk as [rows v Hfv|]; simplify_eq. by exists (bucket k (omap id rs)), v.
Qed.
End group_reduce_members.

Lemma np_mean_axis0_length (rows : list (list Qc)) (m r : list Qc) :
  np_mean_axis0 rows = Ok m → r ∈ rows → length r = length m.
Proof.
  destruct rows as [|r0 rows]; [done|]. unfold np_mean_axis0.
  case_bool_decide as Hall; [|done]. intros [= <-] Hr.
  rewrite length_fmap, length_seq. by apply (proj1 (Forall_forall _ _) Hall).
Qed.

Lemma mean_percent_length (rows : list (list Qc)) (m r : list Qc) :
  mean_percent rows = Ok m → r ∈ rows → length r = length m.
Proof.
  intros (m1 & Hm1 & [= <-])%bind_Ok Hr. rewrite length_fmap.
  by apply (np_mean_axis0_length rows).
Qed.

Lemma common_length_lookup (cum : gmap nat (list Qc)) (n k : nat) (v : list Qc) :
  common_length (map_to_list cum).*2 = Ok n → cum !! k = Some v → length v = n.
Proof.
  intros Hrows Hk%elem_of_map_to_list. unfold common_length in Hrows.
  destruct (map_to_list cum) as [|[k0 v0] l]; [by apply elem_of_nil in Hk|].
  csimpl in Hrows. case_bool_decide as Hall; [|done]. injection Hrows as <-.
  change (v0 :: l.*2) with (((k0, v0) :: l).*2) in Hall.
  rewrite Forall_fmap, Forall_forall in Hall. by apply (Hall (k, v)).
Qed.

Lemma dominant_contribution_Some (d : document) (r : option (nat * list Qc)) :
  dominant_contribution d = Ok r → ∃ k vec, r = Some (k, vec).
Proof.
  intros (items & _ & (v & _ & (i & _ & [= <-])%bind_Ok)%bind_Ok)%bind_Ok. by exists i, v.
Qed.

(** X11. The co-occurrence view comes about only for a collection
    whose records all store the same number [n] of topics, each of
    which is the dominant topic of at least one record: the frame has
    one row per topic position, and the suppression loop reads the
    column of every row. The labels are taken to be distinct and
    different from the name of the column of maxima. *)
Theorem co_occurrence_view_needs_every_topic (get_topic_label : nat → string)
    (D : list document) (df : DataFrame) :
  Inj (=) (=) get_topic_label → (∀ i, get_topic_label i ≠ "max") →
  plot_topic_co_occurrence get_topic_label D = Ok df →
  ∃ n, df_index df = get_topic_label <$> seq 0 n ∧
    (∀ d, d ∈ D → topic_count d = n) ∧
    ∀ i, (i < n)%nat → ∃ d vec, d ∈ D ∧ dominant_contribution d = Ok (Some (i, vec)).
Proof.
  intros Hinj Hnotmax (cum & Hcum & Hdf)%bind_Ok.
  rewrite dominant_id_to_cum_topics_of_group_reduce in Hcum.
  assert (∃ n, common_length (map_to_list cum).*2 = Ok n) as [n Hrows].
  { unfold self_suppress, labelled_frame in Hdf.
    destruct (common_length (map_to_list cum).*2) as [n|e]; [by exists n | done]. }
  assert (NoDup (get_topic_label <$> seq 0 n)) as Hnd.
  { apply (NoDup_fmap_2 _), NoDup_seq. }
  assert ("max" ∉ get_topic_label <$> seq 0 n) as Hmax.
  { intros (i & Hi & _)%list_elem_of_fmap. by apply (Hnotmax i). }
  assert (dom cum ⊆ set_seq 0 n) as Hdom.
  { intros k [v Hv]%elem_of_dom. apply elem_of_set_seq. split; [lia|]. cbn.
    rewrite <- (common_length_lookup cum n k v Hrows Hv).
    apply (group_reduce_keyed dominant_contribution mean_percent
             (λ k vec, (k < length vec)%nat) (λ k vec, (k < length vec)%nat) D cum)
      with (k := k) (v := v); [| |exact Hcum|exact Hv].
    - intros d k' vec _ (items & _ & _ & Hi)%dominant_contribution_Ok.
      apply max_topic_id_of_Ok in Hi as (p & Hp & _). by eapply lookup_lt_Some.
    - intros k' rows m Hall Hm.
      destruct rows as [|r rows]; [done|].
      rewrite <- (mean_percent_length (r :: rows) m r Hm) by left.
      by apply Forall_cons in Hall as [? _]. }
  pose proof (self_suppress_Ok_keys get_topic_label n cum Hnd Hmax Hrows Hdom df Hdf)
    as Hkeys.
  exists n. split; [|split].
  - destruct (self_suppress_frame get_topic_label n cum Hnd Hmax Hrows Hdom Hkeys)
      as [maxcol Hframe].
    rewrite Hframe in Hdf. by injection Hdf as <-.
  - intros d Hd.
    assert (∃ k vec, dominant_contribution d = Ok (Some (k, vec))) as (k & vec & Hcontrib).
    { apply bind_Ok in Hcum as (rs & Hrs%mapM_Ok & _).
      destruct (Forall2_elem_of_l _ _ _ _ Hrs Hd) as (r & _ & Hr).
      destruct (dominant_contribution_Some d r Hr) as (k & vec & ->). by exists k, vec. }
    destruct (group_reduce_member dominant_contribution mean_percent D cum d k vec
                Hcum Hd Hcontrib) as (rows & v & Hvec & Hv & Hk).
    apply dominant_contribution_Ok in Hcontrib as (items & Hitems & Hsorted & _).
    unfold topic_count. rewrite Hitems, <- (sorted_topic_values_length items vec Hsorted).
    rewrite (mean_percent_length rows v vec Hv Hvec).
    by apply (common_length_lookup cum n k v).
  - intros i Hi. destruct (Hkeys i Hi) as [v Hv].
    by apply (group_reduce_key_origin dominant_contribution mean_percent D cum i v).
Qed.

Lemma co_occurrence_view_needs_every_topic_witness :
  ∃ n, ["0"; "1"] = pretty <$> seq 0 n ∧
    (∀ d, d ∈ [doc_a; doc_b] → topic_count d = n) ∧
    ∀ i, (i < n)%nat →
      ∃ d vec, d ∈ [doc_a; doc_b] ∧ dominant_contribution d = Ok (Some (i, vec)).
Proof.
  apply (co_occurrence_view_needs_every_topic pretty [doc_a; doc_b]
           (Frame ["0"; "1"]
              [("1", [frac 25 1; 0]); ("0", [0; frac 50 1]);
               ("max", [frac 50 1; frac 75 1])])).
  - apply _.
  - intros i Hi.
    assert (parse_int (pretty i) = Some (Z.of_nat i)) as Hparse.
    { destruct i as [|i]; [done|]. exact (parse_int_py_str (Z.of_nat (S i))). }
    rewrite Hi in Hparse. discriminate Hparse.
  - by_evaluation.
Defined.

(** ** When the dominant-topic passes get through *)

Lemma title_row_of_succeeds (d : document) :
  succeeds (title_row_of d) ↔ ∃ items, topics d = Present items ∧ items ≠ [].
Proof.
  unfold title_row_of, dominant_topic, topics_iteritems.
  destruct (topics d) as [| |items].
  - split; [by intros [? [=]] | by intros (? & [=] & _)].
  - split; [by intros [? [=]] | by intros (? & [=] & _)].
  - rewrite Ok_bind. destruct items as [|kv items].
    + split; [by intros [? [=]] | by intros (? & [= <-] & ?)].
    + split; [intros _; by eexists | intros _; by eexists].
Qed.

Lemma dominant_contribution_succeeds (d : document) :
  succeeds (dominant_contribution d) ↔ readable d ∧ topic_count d ≠ 0%nat.
Proof.
  unfold dominant_contribution, topics_iteritems, readable, topic_count.
  destruct (topics d) as [| |items].
  - split; [by intros [? [=]] | by intros [(? & [=] & _) _]].
  - split; [by intros [? [=]] | by intros [(? & [=] & _) _]].
  - rewrite Ok_bind. destruct (sorted_topic_values items) as [v|e] eqn:Hv.
    + rewrite Ok_bind.
      assert (Forall (λ kv, is_Some (parse_int kv.1)) items) as Hkeys.
      { apply sorted_topic_values_succeeds. by exists v. }
      pose proof (sorted_topic_values_length items v Hv) as Hlen.
      destruct v as [|x v].
      * split; [by intros [? [=]]|]. intros [_ Hne]. simpl in Hlen. by rewrite <- Hlen in Hne.
      * destruct (max_topic_id_of_succeeds (x :: v)) as [i Hi]; [done|].
        rewrite Hi, Ok_bind. split; [|intros _; by eexists].
        intros _. split; [by exists items|]. rewrite <- Hlen. done.
    + rewrite Raise_bind. split; [by intros [? [=]]|].
      intros [(items' & [= <-] & Hkeys%sorted_topic_values_succeeds) _].
      rewrite Hv in Hkeys. by destruct Hkeys as [? [=]].
Qed.

(** X12. The titles table is written exactly when every record has a
    topic mapping with at least one entry, whatever its keys, and then
    has one row per record. The grouping by dominant topic asks for
    more: it gets through exactly when, in addition, all keys are
    integer literals. *)
Theorem dominant_passes_succeed (D : list document) :
  (succeeds (get_document_title_per_topic D) ↔
     Forall (λ d, ∃ items, topics d = Present items ∧ items ≠ []) D) ∧
  (∀ rows, get_document_title_per_topic D = Ok rows → length rows = length D) ∧
  (succeeds (dominant_id_to_topics_of D) ↔
     Forall (λ d, readable d ∧ topic_count d ≠ 0%nat) D).
Proof.
  split; [|split].
  - rewrite get_document_title_per_topic_mapM, mapM_succeeds.
    apply Forall_proper; [|done]. intros d. apply title_row_of_succeeds.
  - rewrite get_document_title_per_topic_mapM. intros rows Hrows%mapM_Ok.
    symmetry. by eapply Forall2_length.
  - rewrite dominant_id_to_topics_of_grouped.
    rewrite <- (Forall_proper _ _ dominant_contribution_succeeds D D eq_refl).
    rewrite <- mapM_succeeds.
    destruct (mapM dominant_contribution D) as [rs|e].
    + split; intros _; by eexists.
    + split; intros [? [=]].
Qed.

(** ** The order of the topic vector *)

(** X13. [sorted] with the key [int(x[0])] is a stable sort of the
    items of the mapping: the result holds the same items, in
    ascending order of the integer their keys denote, and items whose
    keys denote the same integer (as ["1"] and ["01"] do) keep the
    order in which the mapping yields them. *)
Theorem sorted_by_int_key_stable (items sorted : topic_items) :
  sorted_by_int_key items = Ok sorted →
  sorted ≡ₚ items ∧
  (∃ ids, has_ids sorted ids ∧ StronglySorted Z.le ids) ∧
  ∀ z, filter (λ kv, parse_int kv.1 = Some z) sorted
       = filter (λ kv, parse_int kv.1 = Some z) items.
Proof.
  intros Hsorted. split; [by apply sorted_by_int_key_Permutation|].
  apply bind_Ok in Hsorted as (keyed & Hkeyed & [= <-]).
  apply int_keyed_Ok in Hkeyed as [Hids <-].
  assert (keyed = zip keyed.*1 keyed.*2) as Hzip by (by rewrite zip_fst_snd).
  assert (Forall (λ kx, parse_int kx.2.1 = Some kx.1) keyed) as Hparse.
  { rewrite Hzip. by apply has_ids_zip. }
  assert (Forall (λ kx, parse_int kx.2.1 = Some kx.1) (sort_by_key keyed)) as Hparse'.
  { by rewrite sort_by_key_Permutation. }
  split.
  - exists (sort_by_key keyed).*1. split.
    + unfold has_ids. apply Forall2_fmap, Forall_Forall2_diag.
      eapply Forall_impl; [exact Hparse'|]. done.
    + apply StronglySorted_fmap with (R1 := key_le); [by intros ?? | apply sort_by_key_sorted].
  - intros z. rewrite !filter_keyed_snd by done. by rewrite sort_by_key_stable.
Qed.

Lemma sorted_by_int_key_stable_witness :
  filter (λ kv : string * Qc, parse_int kv.1 = Some 1%Z)
    [("0", frac 1 4); ("1", frac 1 2); ("01", frac 1 4)]
  = filter (λ kv : string * Qc, parse_int kv.1 = Some 1%Z)
      [("1", frac 1 2); ("0", frac 1 4); ("01", frac 1 4)].
Proof.
  destruct (sorted_by_int_key_stable
              [("1", frac 1 2); ("0", frac 1 4); ("01", frac 1 4)]
              [("0", frac 1 4); ("1", frac 1 2); ("01", frac 1 4)]) as (_ & _ & Hstable).
  - by_evaluation.
  - apply Hstable.
Defined.
